(** * crypto_scheme: a shallow embedding of GEN, ENC and DEC

    The three functions of [crypto_scheme.py] are embedded as Rocq
    functions over Python-like data: an [int] is a [Z], a [List[int]] is a
    [list Z] indexed and updated in place with stdpp's lookup and insert,
    and a raised exception is the [Raise] branch of a [result].  *)

From Stdlib Require Import ZArith Lia Ascii String.
From stdpp Require Import list strings pretty gmap.

Local Open Scope Z_scope.

(** * The program *)

(** ** Python values, exceptions and the error monad *)

Module Py.

(** The exceptions the three functions can raise.  [ValueError] is the one
    ENC and DEC raise themselves on a length mismatch. *)
Inductive exn : Type :=
  | ValueError
  | ZeroDivisionError
  | IndexError
  | UnicodeEncodeError.

Inductive result (A : Type) : Type :=
  | Ret (a : A)
  | Raise (e : exn).
Arguments Ret {A} a.
Arguments Raise {A} e.

Definition bind {A B : Type} (m : result A) (k : A → result B) : result B :=
  match m with
  | Ret a => k a
  | Raise e => Raise e
  end.

#[global] Instance exn_eq_dec : EqDecision exn.
Proof. solve_decision. Defined.

#[global] Instance result_ret : MRet result := @Ret.
#[global] Instance result_bind : MBind result := λ A B k m, bind m k.

(** [len(l)] *)
Definition len (l : list Z) : Z := Z.of_nat (length l).

(** [a % n]: floor modulo, [ZeroDivisionError] when [n] is 0. *)
Definition mod_ (a n : Z) : result Z :=
  if decide (n = 0) then Raise ZeroDivisionError else Ret (a `mod` n).

(** Python index normalisation: a negative index counts from the end. *)
Definition norm_index (l : list Z) (i : Z) : Z :=
  if decide (i < 0) then i + len l else i.

(** [l[i]] *)
Definition getitem (l : list Z) (i : Z) : result Z :=
  let j := norm_index l i in
  if decide (0 ≤ j < len l) then
    match l !! Z.to_nat j with
    | Some x => Ret x
    | None => Raise IndexError
    end
  else Raise IndexError.

(** [l[i] = v], the updated list being the new contents of the object. *)
Definition setitem (l : list Z) (i : Z) (v : Z) : result (list Z) :=
  let j := norm_index l i in
  if decide (0 ≤ j < len l) then Ret (<[Z.to_nat j := v]> l)
  else Raise IndexError.

(** [for i in idx: s = body(s, i)], stopping at the first exception. *)
Fixpoint for_each {S : Type} (body : S → Z → result S) (idx : list Z) (s : S)
  : result S :=
  match idx with
  | [] => Ret s
  | i :: idx' => s' ← body s i; for_each body idx' s'
  end.

(** [range(n)] *)
Definition range (n : Z) : list Z := seqZ 0 n.

(** [range(start, -1, -1)] *)
Definition range_down (start : Z) : list Z := reverse (seqZ 0 (start + 1)).

End Py.

Import Py.

(** ** ENC and DEC *)

Definition rounds : Z := 6.

(** [for i in range(n): C[i] ^= K[(i + shift) % n]] *)
Definition xor_key (K : list Z) (n shift : Z) (C : list Z) : result (list Z) :=
  for_each (λ C i,
    c ← getitem C i;
    j ← mod_ (i + shift) n;
    k ← getitem K j;
    setitem C i (Z.lxor c k)) (range n) C.

(** [mult = 3 if n % 3 != 0 else 5] *)
Definition mult_of (n : Z) : result Z :=
  m ← mod_ n 3; mret (if decide (m ≠ 0) then 3 else 5).

(** [for i in range(n): new_pos = (i * mult + r * 7) % n; C[new_pos] = C_temp[i]] *)
Definition scatter (n mult r : Z) (C_temp C : list Z) : result (list Z) :=
  for_each (λ C i,
    new_pos ← mod_ (i * mult + r * 7) n;
    v ← getitem C_temp i;
    setitem C new_pos v) (range n) C.

(** [for i in range(n): new_pos = (i * mult + r * 7) % n; M[i] = M_temp[new_pos]] *)
Definition gather (n mult r : Z) (M_temp M : list Z) : result (list Z) :=
  for_each (λ M i,
    new_pos ← mod_ (i * mult + r * 7) n;
    v ← getitem M_temp new_pos;
    setitem M i v) (range n) M.

(** The body of ENC's loop over the rounds. *)
Definition ENC_round (K : list Z) (n : Z) (C : list Z) (r : Z) : result (list Z) :=
  shift ← mod_ (r * 11) n;
  C ← xor_key K n shift C;
  let C_temp := C in
  mult ← mult_of n;
  scatter n mult r C_temp C.

Definition ENC (K M : list Z) : result (list Z) :=
  if decide (len K ≠ len M) then Raise ValueError
  else
    let n := len M in
    let C := M in
    for_each (ENC_round K n) (range rounds) C.

(** The body of DEC's loop over the rounds. *)
Definition DEC_round (K : list Z) (n : Z) (M : list Z) (r : Z) : result (list Z) :=
  let M_temp := M in
  mult ← mult_of n;
  M ← gather n mult r M_temp M;
  shift ← mod_ (r * 11) n;
  xor_key K n shift M.

Definition DEC (K C : list Z) : result (list Z) :=
  if decide (len K ≠ len C) then Raise ValueError
  else
    let n := len C in
    let M := C in
    for_each (DEC_round K n) (range_down (rounds - 1)) M.

(** ** GEN

    A [str] is the list of its code points, numbers from 0 to 0x10FFFF,
    and [len(seed)] counts them.  A string literal of the program, and the
    text it formats itself, is a Rocq [string], whose characters stand
    for their code points.  The hash is a parameter of GEN, and its
    [while] loop runs on fuel. *)

(** The [str] a Rocq [string] stands for. *)
Definition codepoints (s : string) : list Z :=
  (λ a, Z.of_nat (nat_of_ascii a)) <$> list_ascii_of_string s.

(** [str(counter)] *)
Definition str (counter : Z) : string := pretty counter.

(** [s.encode()]: UTF-8 in strict mode.  A code point takes one to four
    bytes, and a surrogate, from 0xD800 to 0xDFFF, raises
    [UnicodeEncodeError]. *)
Definition encode_char (c : Z) : result (list Z) :=
  if decide (c < 0x80) then Ret [c]
  else if decide (c < 0x800) then
    Ret [Z.lor 0xC0 (Z.shiftr c 6); Z.lor 0x80 (Z.land c 0x3F)]
  else if decide (0xD800 ≤ c ≤ 0xDFFF) then Raise UnicodeEncodeError
  else if decide (c < 0x10000) then
    Ret [Z.lor 0xE0 (Z.shiftr c 12);
         Z.lor 0x80 (Z.land (Z.shiftr c 6) 0x3F);
         Z.lor 0x80 (Z.land c 0x3F)]
  else
    Ret [Z.lor 0xF0 (Z.shiftr c 18);
         Z.lor 0x80 (Z.land (Z.shiftr c 12) 0x3F);
         Z.lor 0x80 (Z.land (Z.shiftr c 6) 0x3F);
         Z.lor 0x80 (Z.land c 0x3F)].

Fixpoint encode (s : list Z) : result (list Z) :=
  match s with
  | [] => Ret []
  | c :: s' => b ← encode_char c; bs ← encode s'; mret (b ++ bs)
  end.

(** A run of a function with a GEN loop in it: [None] when the fuel of
    the loop runs out, else what the function returns or raises. *)
Definition run (A : Type) : Type := option (result A).

Section GEN.
(** [hashlib.sha256(data).digest()], from bytes to the bytes of the
    digest. *)
Variable sha256 : list Z → list Z.

(** [for i in range(8): if len(key_bits) < key_len:
       key_bits.append((byte >> (7 - i)) & 1)] *)
Definition append_byte (key_len : Z) (key_bits : list Z) (byte : Z) : list Z :=
  foldl (λ key_bits i,
    if decide (len key_bits < key_len)
    then key_bits ++ [Z.land (Z.shiftr byte (7 - i)) 1]
    else key_bits) key_bits (range 8).

(** [for byte in hash_bytes: ...] *)
Definition append_digest (key_len : Z) (key_bits hash_bytes : list Z) : list Z :=
  foldl (append_byte key_len) key_bits hash_bytes.

(** [if counter > 0: hash_bytes = sha256((seed + str(counter)).encode())] *)
Definition next_digest (seed : list Z) (hash_bytes : list Z) (counter : Z)
  : result (list Z) :=
  if decide (counter > 0)
  then data ← encode (seed ++ codepoints (str counter)); mret (sha256 data)
  else Ret hash_bytes.

(** [while len(key_bits) < key_len: ...]; [None] when the fuel runs out
    before the loop ends. *)
Fixpoint GEN_while (fuel : nat) (seed : list Z) (key_len : Z)
    (hash_bytes key_bits : list Z) (counter : Z) : run (list Z) :=
  if decide (len key_bits < key_len) then
    match fuel with
    | O => None
    | S fuel' =>
        match next_digest seed hash_bytes counter with
        | Raise e => Some (Raise e)
        | Ret hash_bytes =>
            let key_bits := append_digest key_len key_bits hash_bytes in
            GEN_while fuel' seed key_len hash_bytes key_bits (counter + 1)
        end
    end
  else Some (Ret key_bits).

Definition GEN (fuel : nat) (seed : list Z) : run (list Z) :=
  let seed_len := len seed in
  let key_len := 4 * seed_len in
  match encode seed with
  | Raise e => Some (Raise e)
  | Ret data =>
      let hash_bytes := sha256 data in
      match GEN_while fuel seed key_len hash_bytes [] 0 with
      | Some (Ret key_bits) => Some (Ret (take (Z.to_nat key_len) key_bits))
      | Some (Raise e) => Some (Raise e)
      | None => None
      end
  end.
End GEN.

(** ** SHA-256

    The hash function GEN calls, after FIPS 180-4, on bytes and 32-bit
    words held in [Z].  It instantiates the [sha256] that GEN takes. *)

Module SHA256.

Definition w32 (x : Z) : Z := x `mod` 2 ^ 32.
Definition add32 (x y : Z) : Z := w32 (x + y).
Definition rotr (k x : Z) : Z := Z.lor (Z.shiftr x k) (w32 (Z.shiftl x (32 - k))).
Definition not32 (x : Z) : Z := Z.lxor x 0xffffffff.

Definition Ch (x y z : Z) : Z := Z.lxor (Z.land x y) (Z.land (not32 x) z).
Definition Maj (x y z : Z) : Z :=
  Z.lxor (Z.land x y) (Z.lxor (Z.land x z) (Z.land y z)).
Definition Sigma0 (x : Z) : Z := Z.lxor (rotr 2 x) (Z.lxor (rotr 13 x) (rotr 22 x)).
Definition Sigma1 (x : Z) : Z := Z.lxor (rotr 6 x) (Z.lxor (rotr 11 x) (rotr 25 x)).
Definition sigma0 (x : Z) : Z := Z.lxor (rotr 7 x) (Z.lxor (rotr 18 x) (Z.shiftr x 3)).
Definition sigma1 (x : Z) : Z := Z.lxor (rotr 17 x) (Z.lxor (rotr 19 x) (Z.shiftr x 10)).

(** The first 64 primes. *)
Definition primes : list Z :=
  Eval vm_compute in
    filter (λ p, forallb (λ d, negb (p `mod` d =? 0)) (seqZ 2 (p - 2)))
      (seqZ 2 310).

(** The integer cube root of a number below [2 ^ 108], bit by bit. *)
Definition cube_root (x : Z) : Z :=
  foldl (λ r b, let r' := r + 2 ^ b in if decide (r' * r' * r' ≤ x) then r' else r)
    0 (reverse (seqZ 0 36)).

(** The round constants: the first 32 bits of the fractional parts of the
    cube roots of the first 64 primes. *)
Definition K256 : list Z :=
  Eval vm_compute in (λ p, w32 (cube_root (p * 2 ^ 96))) <$> primes.

Definition state : Type := Z * Z * Z * Z * Z * Z * Z * Z.

(** The initial hash value: the first 32 bits of the fractional parts of
    the square roots of the first 8 primes. *)
Definition H0 : state :=
  Eval vm_compute in
    match (λ p, w32 (Z.sqrt (p * 2 ^ 64))) <$> take 8 primes with
    | [a; b; c; d; e; f; g; h] => (a, b, c, d, e, f, g, h)
    | _ => (0, 0, 0, 0, 0, 0, 0, 0)
    end.

(** Big-endian bytes of a word, and back. *)
Definition word_bytes (w : Z) : list Z :=
  [Z.land (Z.shiftr w 24) 255; Z.land (Z.shiftr w 16) 255;
   Z.land (Z.shiftr w 8) 255; Z.land w 255].

Fixpoint words_of (k : nat) (bytes : list Z) : list Z :=
  match k with
  | O => []
  | S k' =>
      foldl (λ w b, Z.lor (Z.shiftl w 8) b) 0 (take 4 bytes)
      :: words_of k' (drop 4 bytes)
  end.

(** The message followed by the bit 1, zeros, and its bit length on 8
    bytes, to a multiple of 64 bytes. *)
Definition pad (msg : list Z) : list Z :=
  let l := Z.of_nat (length msg) in
  let zeros := Z.to_nat ((55 - l) `mod` 64) in
  msg ++ [128] ++ replicate zeros 0
      ++ word_bytes (Z.shiftr (8 * l) 32) ++ word_bytes (w32 (8 * l)).

(** The 64 words of the message schedule of a block of 16 words. *)
Definition schedule (block : list Z) : list Z :=
  foldl (λ W t,
    W ++ [add32 (add32 (sigma1 (W !!! (t - 2)%nat)) (W !!! (t - 7)%nat))
                (add32 (sigma0 (W !!! (t - 15)%nat)) (W !!! (t - 16)%nat))])
    block (seq 16 48).

Definition step (s : state) (kw : Z * Z) : state :=
  let '(a, b, c, d, e, f, g, h) := s in
  let T1 := add32 (add32 (add32 h (Sigma1 e)) (add32 (Ch e f g) kw.1)) kw.2 in
  let T2 := add32 (Sigma0 a) (Maj a b c) in
  (add32 T1 T2, a, b, c, add32 d T1, e, f, g).

Definition compress (s : state) (block : list Z) : state :=
  let '(a, b, c, d, e, f, g, h) := s in
  let '(a', b', c', d', e', f', g', h') :=
    foldl step s (zip K256 (schedule block)) in
  (add32 a a', add32 b b', add32 c c', add32 d d',
   add32 e e', add32 f f', add32 g g', add32 h h').

Fixpoint blocks (k : nat) (s : state) (bytes : list Z) : state :=
  match k with
  | O => s
  | S k' => blocks k' (compress s (words_of 16 (take 64 bytes))) (drop 64 bytes)
  end.

Definition digest_bytes (s : state) : list Z :=
  let '(a, b, c, d, e, f, g, h) := s in
  word_bytes a ++ word_bytes b ++ word_bytes c ++ word_bytes d
    ++ word_bytes e ++ word_bytes f ++ word_bytes g ++ word_bytes h.

Definition sha256 (msg : list Z) : list Z :=
  let padded := pad msg in
  digest_bytes (blocks (length padded / 64)%nat H0 padded).

End SHA256.

(** ** ENC and DEC on list objects

    The lists ENC and DEC receive are objects: the caller keeps a
    reference to them, and [C[i] = v] is seen through every reference to
    [C].  Here a list is a location of a store, the arguments may be one
    and the same object, and an exception leaves the store as it was when
    it was raised. *)

Module Obj.

Definition loc : Type := nat.

Abbreviation store := (gmap loc (list Z)).

Definition prog (A : Type) : Type := store → result A * store.

Definition ret {A} (a : A) : prog A := λ h, (Ret a, h).

Definition bind {A B} (m : prog A) (k : A → prog B) : prog B :=
  λ h, match m h with
       | (Ret a, h') => k a h'
       | (Raise e, h') => (Raise e, h')
       end.

Definition raise {A} (e : exn) : prog A := λ h, (Raise e, h).

(** An operation on values that touches no object. *)
Definition lift {A} (r : result A) : prog A := λ h, (r, h).

(** The contents of the object at [l]; every reference a program holds
    points to an object. *)
Definition read (l : loc) : prog (list Z) := λ h, (Ret (h !!! l), h).

Definition write (l : loc) (v : list Z) : prog unit :=
  λ h, (Ret tt, <[l := v]> h).

(** A new object, at a location no object has. *)
Definition alloc (v : list Z) : prog loc :=
  λ h, let l := fresh (dom h) in (Ret l, <[l := v]> h).

Declare Scope prog_scope.
Delimit Scope prog_scope with prog.
Notation "x ← m ; k" := (bind m (λ x, k))
  (at level 20, m at level 100, k at level 200, only parsing) : prog_scope.
Notation "m ;; k" := (bind m (λ _, k))
  (at level 100, k at level 200, only parsing, right associativity) : prog_scope.
Local Open Scope prog_scope.

(** [len(l)], [l.copy()], [l[i]] and [l[i] = v] *)
Definition len (l : loc) : prog Z := v ← read l; ret (Py.len v).
Definition copy (l : loc) : prog loc := v ← read l; alloc v.
Definition getitem (l : loc) (i : Z) : prog Z :=
  v ← read l; lift (Py.getitem v i).
Definition setitem (l : loc) (i x : Z) : prog unit :=
  v ← read l; v' ← lift (Py.setitem v i x); write l v'.

Fixpoint for_each (body : Z → prog unit) (idx : list Z) : prog unit :=
  match idx with
  | [] => ret tt
  | i :: idx' => body i;; for_each body idx'
  end.

Definition xor_key (K : loc) (n shift : Z) (C : loc) : prog unit :=
  for_each (λ i,
    c ← getitem C i;
    j ← lift (mod_ (i + shift) n);
    k ← getitem K j;
    setitem C i (Z.lxor c k)) (range n).

Definition scatter (n mult r : Z) (C_temp C : loc) : prog unit :=
  for_each (λ i,
    new_pos ← lift (mod_ (i * mult + r * 7) n);
    v ← getitem C_temp i;
    setitem C new_pos v) (range n).

Definition gather (n mult r : Z) (M_temp M : loc) : prog unit :=
  for_each (λ i,
    new_pos ← lift (mod_ (i * mult + r * 7) n);
    v ← getitem M_temp new_pos;
    setitem M i v) (range n).

Definition ENC_round (K : loc) (n : Z) (C : loc) (r : Z) : prog unit :=
  shift ← lift (mod_ (r * 11) n);
  xor_key K n shift C;;
  C_temp ← copy C;
  mult ← lift (mult_of n);
  scatter n mult r C_temp C.

Definition ENC (K M : loc) : prog loc :=
  nK ← len K;
  nM ← len M;
  if decide (nK ≠ nM) then raise ValueError
  else
    n ← len M;
    C ← copy M;
    for_each (ENC_round K n C) (range rounds);;
    ret C.

Definition DEC_round (K : loc) (n : Z) (M : loc) (r : Z) : prog unit :=
  M_temp ← copy M;
  mult ← lift (mult_of n);
  gather n mult r M_temp M;;
  shift ← lift (mod_ (r * 11) n);
  xor_key K n shift M.

Definition DEC (K C : loc) : prog loc :=
  nK ← len K;
  nC ← len C;
  if decide (nK ≠ nC) then raise ValueError
  else
    n ← len C;
    M ← copy C;
    for_each (DEC_round K n M) (range_down (rounds - 1));;
    ret M.

End Obj.

(** ** The evaluation functions

    The parts of the evaluation functions that compute on integers and
    lists; what they print and the time they measure are left out. *)

(** [sum(c1 != c2 for c1, c2 in zip(C_original, C_modified))] *)
Definition bits_changed (C_original C_modified : list Z) : Z :=
  foldl Z.add 0
    ((λ c, if decide (c.1 ≠ c.2) then 1 else 0) <$> zip C_original C_modified).

(** The list [diffusion_results] of [test_diffusion] for a key [K] and a
    message [M_original]: for each [bit_pos], the bits of the ciphertext
    that change when [M_original[bit_pos]] is flipped. *)
Definition diffusion_results (K M_original : list Z) : result (list Z) :=
  let n := len K in
  C_original ← ENC K M_original;
  for_each (λ diffusion_results bit_pos,
    let M_modified := M_original in
    m ← getitem M_modified bit_pos;
    M_modified ← setitem M_modified bit_pos (Z.lxor m 1);
    C_modified ← ENC K M_modified;
    let bits_changed := bits_changed C_original C_modified in
    mret (diffusion_results ++ [bits_changed])) (range n) [].

Fixpoint for_each_run {S : Type} (body : S → Z → run S) (idx : list Z) (s : S)
  : run S :=
  match idx with
  | [] => Some (Ret s)
  | i :: idx' =>
      match body s i with
      | Some (Ret s') => for_each_run body idx' s'
      | Some (Raise e) => Some (Raise e)
      | None => None
      end
  end.

(** The state of [random]: the bits its next calls of [randint(0, 1)]
    return. *)
Definition rng : Type := nat → bool.

(** [[random.randint(0, 1) for _ in range(k)]], and the state after it. *)
Definition randints (k : Z) (g : rng) : list Z * rng :=
  ((λ i, Z.b2z (g i)) <$> seq 0 (Z.to_nat k), λ i, g (Z.to_nat k + i)%nat).

(** [f"{i:0{width}d}"]: the decimal digits padded with zeros to [width]
    characters, after the sign of a negative [i]. *)
Definition zeros (k : nat) : string := string_of_list_ascii (replicate k "0"%char).

Definition zero_pad (width : nat) (i : Z) : string :=
  if decide (i < 0)
  then "-" +:+ zeros (width - 1 - String.length (str (- i))) +:+ str (- i)
  else zeros (width - String.length (str i)) +:+ str i.

(** [''.join(map(str, C))] *)
Definition C_str (C : list Z) : string := foldr (λ c s, str c +:+ s) "" C.

(** [ciphertexts[C_str].append(seed)] on a [defaultdict(list)], whose keys
    stay in the order they were first used in. *)
Fixpoint dict_append (d : list (string * list string)) (k v : string)
  : list (string * list string) :=
  match d with
  | [] => [(k, [v])]
  | (k', vs) :: d' =>
      if decide (k' = k) then (k', vs ++ [v]) :: d'
      else (k', vs) :: dict_append d' k v
  end.

(** [chr((ord(c) + 1 - 32) % 95 + 32)], on the code point of [c]; the
    argument of [chr] is between 32 and 126. *)
Definition next_char (c : Z) : Z := (c + 1 - 32) `mod` 95 + 32.

(** [seed_mod = list(seed_original); seed_mod[pos] = chr(...);
     ''.join(seed_mod)] of [test_confusion]. *)
Definition modified_seed (seed_original : list Z) (pos : Z) : result (list Z) :=
  let seed_mod := seed_original in
  c ← getitem seed_mod pos;
  setitem seed_mod pos (next_char c).

Section evaluation.
Variable sha256 : list Z → list Z.
Variable fuel : nat.

(** The body of the loop of [test_basic_functionality], on the count of
    successes and the state of [random]. *)
Definition basic_round (st : Z * rng) (i : Z) : run (Z * rng) :=
  let '(success_count, g) := st in
  let seed := "test" +:+ zero_pad 4 i in
  match GEN sha256 fuel (codepoints seed) with
  | None => None
  | Some (Raise e) => Some (Raise e)
  | Some (Ret K) =>
      let '(M, g) := randints (len K) g in
      Some (C ← ENC K M;
            M_dec ← DEC K C;
            mret (if decide (M = M_dec) then success_count + 1
                  else success_count, g))
  end.

(** What [test_basic_functionality] returns, and the state of [random]
    after it. *)
Definition test_basic_functionality (g : rng) : run (bool * rng) :=
  let success_count := 0 in
  let total_tests := 100 in
  match for_each_run basic_round (range total_tests) (success_count, g) with
  | Some (Ret (success_count, g)) =>
      Some (Ret (bool_decide (success_count = total_tests), g))
  | Some (Raise e) => Some (Raise e)
  | None => None
  end.

(** The body of the loop of [test_equivalent_keys]. *)
Definition equivalent_round (M_fixed : list Z)
    (ciphertexts : list (string * list string)) (i : Z)
  : run (list (string * list string)) :=
  let seed := "s" +:+ zero_pad 7 i in
  match GEN sha256 fuel (codepoints seed) with
  | None => None
  | Some (Raise e) => Some (Raise e)
  | Some (Ret K) =>
      Some (C ← ENC K M_fixed;
            let C_str := C_str C in
            mret (dict_append ciphertexts C_str seed))
  end.

(** The dictionary [ciphertexts] and the number [equivalents] that
    [test_equivalent_keys] computes, and the state of [random] after it. *)
Definition test_equivalent_keys (g : rng)
  : run (list (string * list string) * Z * rng) :=
  let seed_len := 8 in
  let '(M_fixed, g) := randints (4 * seed_len) g in
  let num_tests := 2000 in
  match for_each_run (equivalent_round M_fixed) (range num_tests) [] with
  | Some (Ret ciphertexts) =>
      let collision_groups :=
        filter (λ seeds : list string, (1 < length seeds)%nat) (ciphertexts.*2) in
      let equivalents :=
        foldl Z.add 0
          ((λ seeds : list string, Z.of_nat (length seeds) - 1)
             <$> collision_groups) in
      Some (Ret (ciphertexts, equivalents, g))
  | Some (Raise e) => Some (Raise e)
  | None => None
  end.
(** The list [confusion_results] of [test_confusion] for a seed and a
    message [M_fixed]: for each position of the seed, the bits of the
    ciphertext that change when the character there is replaced. *)
Definition confusion_results (seed_original : list Z) (M_fixed : list Z)
  : run (list Z) :=
  match GEN sha256 fuel seed_original with
  | None => None
  | Some (Raise e) => Some (Raise e)
  | Some (Ret K_original) =>
      match ENC K_original M_fixed with
      | Raise e => Some (Raise e)
      | Ret C_original =>
          for_each_run (λ confusion_results pos,
            match modified_seed seed_original pos with
            | Raise e => Some (Raise e)
            | Ret seed_mod =>
                match GEN sha256 fuel seed_mod with
                | None => None
                | Some (Raise e) => Some (Raise e)
                | Some (Ret K_mod) =>
                    Some (C_mod ← ENC K_mod M_fixed;
                          let bits_changed := bits_changed C_original C_mod in
                          mret (confusion_results ++ [bits_changed]))
                end
            end) (range (len seed_original)) []
      end
  end.
End evaluation.

(** * Definitions the properties are stated with *)

(** ** The loops as pure functions

    When the key and the buffer have the same positive length no index
    leaves its list, and each loop is a fold of in-place updates. *)

(** The multiplier, [3 if n % 3 != 0 else 5], and the position
    [(i * mult + r * 7) % n] round [r] sends index [i] to, as numbers. *)
Definition mult (n : Z) : Z := if decide (n `mod` 3 ≠ 0) then 3 else 5.

Definition new_pos (n r i : Z) : Z := (i * mult n + r * 7) `mod` n.

Definition xor_key_at (K : list Z) (n shift : Z) (j : nat) (c : Z) : Z :=
  Z.lxor c (K !!! Z.to_nat ((Z.of_nat j + shift) `mod` n)).

Definition scatter_step (n r : Z) (C_temp C : list Z) (i : Z) : list Z :=
  <[Z.to_nat (new_pos n r i) := C_temp !!! Z.to_nat i]> C.

Definition gather_at (n r : Z) (M_temp : list Z) (j : nat) (_ : Z) : Z :=
  M_temp !!! Z.to_nat (new_pos n r (Z.of_nat j)).

(** One round of ENC and of DEC on a buffer of length [n > 0]. *)
Definition ENC_round_pure (K : list Z) (n : Z) (C : list Z) (r : Z) : list Z :=
  let X := imap (xor_key_at K n ((r * 11) `mod` n)) C in
  foldl (scatter_step n r X) X (range n).

Definition DEC_round_pure (K : list Z) (n : Z) (M : list Z) (r : Z) : list Z :=
  let Y := imap (gather_at n r M) M in
  imap (xor_key_at K n ((r * 11) `mod` n)) Y.

(** ** The key expander of the specification *)

(** The bits of a byte, bit 7 down to bit 0. *)
Definition byte_bits (b : Z) : list Z :=
  (λ j, Z.b2z (Z.testbit b j)) <$> [7; 6; 5; 4; 3; 2; 1; 0].

(** A seed UTF-8 can encode holds no surrogate. *)
Definition surrogate (c : Z) : Prop := 0xD800 ≤ c ≤ 0xDFFF.

Definition encodable (s : list Z) : Prop := Forall (λ c, ¬ surrogate c) s.

(** The bytes of a seed: its UTF-8 encoding, when it has one. *)
Definition utf8 (s : list Z) : list Z :=
  match encode s with
  | Ret data => data
  | Raise _ => []
  end.

Section expand_key.
Variable sha256 : list Z → list Z.

(** The digest of block [counter]: the hash of the seed alone for block
    0, of the seed followed by the decimal counter for the others. *)
Definition block_digest (seed : list Z) (counter : nat) : list Z :=
  match counter with
  | O => sha256 (utf8 seed)
  | S _ => sha256 (utf8 (seed ++ codepoints (str (Z.of_nat counter))))
  end.

(** The bits of the first [nblocks] digests, in order. *)
Definition key_stream (seed : list Z) (nblocks : nat) : list Z :=
  flat_map (λ c, flat_map byte_bits (block_digest seed c)) (seq 0 nblocks).

(** The key expander as the specification words it: the stream of digest
    bits cut to [4 * length seed] bits. *)
Definition expand_key (nblocks : nat) (seed : list Z) : list Z :=
  take (4 * length seed) (key_stream seed nblocks).
End expand_key.

(** ** Bits, XOR of lists and re-indexing *)

Definition is_bit (b : Z) : Prop := b = 0 ∨ b = 1.

Definition xor_list (A B : list Z) : list Z := zip_with Z.lxor A B.

Definition xor3 (A B C : list Z) : list Z := xor_list (xor_list A B) C.

(** [reindex σ M] holds [M[σ j]] at position [j]. *)
Definition reindex (σ : nat → nat) (M : list Z) : list Z :=
  (λ j, M !!! σ j) <$> seq 0 (length M).

(** The source index of each position after one scatter iteration, after
    a round, and after the rounds of ENC. *)
Definition scatter_index (n r : Z) (τ : nat → nat) (i : Z) : nat → nat :=
  λ j, if decide (j = Z.to_nat (new_pos n r i)) then Z.to_nat i else τ j.

Definition round_index (n r : Z) : nat → nat :=
  foldl (scatter_index n r) id (range n).

Definition ENC_index (n : Z) : nat → nat :=
  foldl (λ σ r, σ ∘ round_index n r) id (range rounds).

(** ** Frames of the object programs *)

(** Every object of [h] other than [C] is in [h'] as it was. *)
Definition updates (C : Obj.loc) (h h' : Obj.store) : Prop :=
  ∀ l, l ≠ C → is_Some (h !! l) → h' !! l = h !! l.

(** [m], run from [h], changes the object [C] alone, as [rv] says. *)
Definition step_spec (C : Obj.loc) (m : Obj.prog unit) (rv : result (list Z))
    (h : Obj.store) : Prop :=
  ∃ c', (m h).2 !! C = Some c' ∧ updates C h (m h).2 ∧
    match rv with
    | Ret c2 => (m h).1 = Ret tt ∧ c' = c2
    | Raise e => (m h).1 = Raise e
    end.

(** What a call leaves behind: every object there before it is
    unchanged, and the result, a new object, holds what the function on
    values returns. *)
Definition call_spec (p : Obj.prog Obj.loc) (v : result (list Z))
    (h : Obj.store) : Prop :=
  (∀ l, is_Some (h !! l) → (p h).2 !! l = h !! l) ∧
  match v with
  | Ret c => ∃ C, (p h).1 = Ret C ∧ h !! C = None ∧ (p h).2 !! C = Some c
  | Raise e => (p h).1 = Raise e
  end.

(** ** Permutations of the positions *)

(** [σ] maps the positions below [N] one-to-one onto themselves. *)
Definition bij_on (N : nat) (σ : nat → nat) : Prop :=
  (∀ j, (j < N)%nat → (σ j < N)%nat) ∧
  (∀ p, (p < N)%nat → ∃ j, (j < N)%nat ∧ σ j = p) ∧
  (∀ j j', (j < N)%nat → (j' < N)%nat → σ j = σ j' → j = j').

(** ** Reading the dictionary of ciphertexts *)

(** [ciphertexts.get(k, [])]: the seeds filed under the key [k]. *)
Fixpoint dict_get (d : list (string * list string)) (k : string) : list string :=
  match d with
  | [] => []
  | (k', vs) :: d' => if decide (k' = k) then vs else dict_get d' k
  end.

(** [sum(len(seeds) - 1 for seeds in collision_groups)] for the values
    [V] of the dictionary. *)
Definition equivalents_of (V : list (list string)) : Z :=
  foldl Z.add 0
    ((λ seeds : list string, Z.of_nat (length seeds) - 1)
       <$> filter (λ seeds : list string, (1 < length seeds)%nat) V).

(** * Lemmas *)

(** ** The functions on sample inputs *)

Example ENC_sample :
  ENC [1; 0; 1; 1; 0; 0; 1; 0] [0; 1; 1; 0; 1; 0; 0; 1]
  = Ret [1; 1; 1; 0; 1; 1; 1; 0].
Proof. vm_compute. reflexivity. Qed.

Example DEC_sample :
  DEC [1; 0; 1; 1; 0; 0; 1; 0] [1; 1; 1; 0; 1; 1; 1; 0]
  = Ret [0; 1; 1; 0; 1; 0; 0; 1].
Proof. vm_compute. reflexivity. Qed.

Example ENC_ints : ENC [5] [3] = Ret [3].
Proof. vm_compute. reflexivity. Qed.

(** The encodings of "ab", of "ab12", of U+00E9, of U+20AC and of
    U+1F600, and the error on the two ends of the surrogate range. *)
Example encode_sample :
  encode (codepoints "ab") = Ret [97; 98] ∧
  encode (codepoints "ab" ++ codepoints (str 12)) = Ret [97; 98; 49; 50] ∧
  encode [0xE9] = Ret [0xC3; 0xA9] ∧
  encode [0x20AC] = Ret [0xE2; 0x82; 0xAC] ∧
  encode [0x1F600] = Ret [0xF0; 0x9F; 0x98; 0x80] ∧
  encode [0xD7FF; 0xE000] = Ret [0xED; 0x9F; 0xBF; 0xEE; 0x80; 0x80] ∧
  encode [97; 0xD800] = Raise UnicodeEncodeError ∧
  encode [0xDFFF; 98] = Raise UnicodeEncodeError.
Proof. vm_compute. auto 10. Qed.

Example sha256_constants :
  length SHA256.primes = 64%nat ∧ last SHA256.primes = Some 311 ∧
  SHA256.K256 !! 0%nat = Some 0x428a2f98 ∧
  SHA256.K256 !! 63%nat = Some 0xc67178f2 ∧
  SHA256.H0.1.1.1.1.1.1.1 = 0x6a09e667.
Proof. vm_compute. auto 6. Qed.

(** The test vectors of FIPS 180-4 for the empty message and "abc". *)
Example sha256_empty :
  SHA256.sha256 []
  = [0xe3; 0xb0; 0xc4; 0x42; 0x98; 0xfc; 0x1c; 0x14;
     0x9a; 0xfb; 0xf4; 0xc8; 0x99; 0x6f; 0xb9; 0x24;
     0x27; 0xae; 0x41; 0xe4; 0x64; 0x9b; 0x93; 0x4c;
     0xa4; 0x95; 0x99; 0x1b; 0x78; 0x52; 0xb8; 0x55].
Proof. vm_compute. reflexivity. Qed.

Example sha256_abc :
  SHA256.sha256 (utf8 (codepoints "abc"))
  = [0xba; 0x78; 0x16; 0xbf; 0x8f; 0x01; 0xcf; 0xea;
     0x41; 0x41; 0x40; 0xde; 0x5d; 0xae; 0x22; 0x23;
     0xb0; 0x03; 0x61; 0xa3; 0x96; 0x17; 0x7a; 0x9c;
     0xb4; 0x10; 0xff; 0x61; 0xf2; 0x00; 0x15; 0xad].
Proof. vm_compute. reflexivity. Qed.

(** The key of the seed "ab": the first 8 bits of its digest, [0xfb]. *)
Example GEN_ab :
  GEN SHA256.sha256 1 (codepoints "ab") = Some (Ret [1; 1; 1; 1; 1; 0; 1; 1]).
Proof. vm_compute. reflexivity. Qed.

(** ** Basic facts about the error monad and the list primitives *)

Section monad_facts.
Context {A B : Type}.

Lemma bind_Ret_inv (m : result A) (k : A → result B) (b : B) :
  (m ≫= k) = Ret b → ∃ a, m = Ret a ∧ k a = Ret b.
Proof. destruct m as [a|e]; [eauto | discriminate]. Qed.

Lemma bind_Ret_l (a : A) (k : A → result B) : (Ret a ≫= k) = k a.
Proof. reflexivity. Qed.

Lemma bind_Raise_l (e : exn) (k : A → result B) : (Raise e ≫= k) = Raise e.
Proof. reflexivity. Qed.
End monad_facts.

(** Split a successful sequence of binds into its successful steps. *)
Ltac bind_inv H :=
  repeat match type of H with
  | (_ ≫= _) = Ret _ =>
      let a := fresh "a" in
      let Ha := fresh "Ha" in
      apply bind_Ret_inv in H as (a & Ha & H)
  end.

Lemma mod_Ret (a n : Z) : n ≠ 0 → mod_ a n = Ret (a `mod` n).
Proof. intros Hn. unfold mod_. by rewrite decide_False. Qed.

Lemma mod_Ret_inv (a n x : Z) : mod_ a n = Ret x → n ≠ 0 ∧ x = a `mod` n.
Proof. unfold mod_. case_decide; [discriminate | intros [= <-]; done]. Qed.

Lemma getitem_Ret (l : list Z) (i : Z) :
  0 ≤ i < len l → getitem l i = Ret (l !!! Z.to_nat i).
Proof.
  intros Hi. unfold getitem, norm_index, len in *.
  destruct (decide (i < 0)); [lia|]. destruct (decide _); [|lia].
  destruct (lookup_lt_is_Some_2 l (Z.to_nat i)) as [x Hx]; [lia|].
  rewrite Hx. by rewrite (list_lookup_total_correct _ _ _ Hx).
Qed.

Lemma getitem_Ret_inv (l : list Z) (i x : Z) : getitem l i = Ret x → x ∈ l.
Proof.
  unfold getitem. case_decide; [|discriminate].
  destruct (l !! _) as [y|] eqn:Hy; [|discriminate].
  intros [= <-]. by eapply list_elem_of_lookup_2.
Qed.

Lemma setitem_Ret (l : list Z) (i v : Z) :
  0 ≤ i < len l → setitem l i v = Ret (<[Z.to_nat i := v]> l).
Proof.
  intros Hi. unfold setitem, norm_index, len in *.
  destruct (decide (i < 0)); [lia|]. by destruct (decide _); [|lia].
Qed.

Lemma setitem_Ret_inv (l l' : list Z) (i v : Z) :
  setitem l i v = Ret l' → ∃ j : nat, l' = <[j := v]> l.
Proof. unfold setitem. case_decide; [|discriminate]. intros [= <-]. eauto. Qed.

(** A property kept by every successful iteration is kept by the loop. *)
Lemma for_each_inv {S : Type} (P : S → Prop) (body : S → Z → result S) idx :
  (∀ s i s', P s → body s i = Ret s' → P s') →
  ∀ s s', P s → for_each body idx s = Ret s' → P s'.
Proof.
  intros Hbody. induction idx as [|i idx IH]; intros s s' Hs H; simpl in H.
  - by injection H as <-.
  - bind_inv H. eauto.
Qed.

(** A loop whose iterations all succeed, computing [f], is the fold of [f]. *)
Lemma for_each_foldl {S : Type} (P : S → Prop) (body : S → Z → result S)
    (f : S → Z → S) idx :
  (∀ s i, i ∈ idx → P s → body s i = Ret (f s i) ∧ P (f s i)) →
  ∀ s, P s → for_each body idx s = Ret (foldl f s idx) ∧ P (foldl f s idx).
Proof.
  induction idx as [|i idx IH]; intros Hbody s Hs; simpl; [done|].
  destruct (Hbody s i) as [-> HP]; [left | done |].
  rewrite bind_Ret_l. apply IH; [|done].
  intros s0 i0 Hi0. apply Hbody. by right.
Qed.

Lemma elem_of_range (n i : Z) : i ∈ range n ↔ 0 ≤ i < n.
Proof. unfold range. rewrite elem_of_seqZ. lia. Qed.

Lemma range_S (k : nat) : range (Z.of_nat (S k)) = range (Z.of_nat k) ++ [Z.of_nat k].
Proof.
  unfold range, seqZ. rewrite !Nat2Z.id, seq_S, fmap_app. simpl.
  by rewrite Z.add_0_r.
Qed.

Lemma mult_of_Ret (n : Z) : mult_of n = Ret (mult n).
Proof. reflexivity. Qed.

Lemma new_pos_code (n r i : Z) :
  n ≠ 0 → (m ← mult_of n; mod_ (i * m + r * 7) n) = Ret (new_pos n r i).
Proof. intros Hn. rewrite mult_of_Ret, bind_Ret_l. by apply mod_Ret. Qed.

Lemma new_pos_range (n r i : Z) : 0 < n → 0 ≤ new_pos n r i < n.
Proof. intros Hn. unfold new_pos. apply Z.mod_pos_bound. lia. Qed.

(** A loop that rewrites position [i] at iteration [i] from the old value
    at [i] alone is an indexed map. *)
Lemma foldl_pointwise_lookup (g : nat → Z → Z) (C : list Z) (k j : nat) :
  (k ≤ length C)%nat →
  foldl (λ C i, <[Z.to_nat i := g (Z.to_nat i) (C !!! Z.to_nat i)]> C) C
      (range (Z.of_nat k)) !! j
  = if decide (j < k)%nat then g j <$> C !! j else C !! j.
Proof.
  induction k as [|k IH]; intros Hk.
  - case_decide; [lia | reflexivity].
  - rewrite range_S, foldl_snoc, Nat2Z.id.
    set (C' := foldl _ C (range (Z.of_nat k))) in *.
    assert (length C' = length C) as Hlen.
    { unfold C'. clear. generalize (range (Z.of_nat k)) as idx. intros idx.
      revert C. induction idx as [|i idx IH]; intros C; simpl; [done|].
      by rewrite IH, length_insert. }
    destruct (decide (j = k)) as [->|Hjk].
    + rewrite list_lookup_insert_eq by lia.
      rewrite decide_True by lia.
      rewrite list_lookup_total_alt, IH by lia.
      rewrite decide_False by lia.
      destruct (lookup_lt_is_Some_2 C k) as [x Hx]; [lia|]. by rewrite Hx.
    + rewrite list_lookup_insert_ne by done. rewrite IH by lia.
      destruct (decide (j < k)%nat), (decide (j < S k)%nat); try done; lia.
Qed.

Lemma foldl_pointwise (g : nat → Z → Z) (C : list Z) :
  foldl (λ C i, <[Z.to_nat i := g (Z.to_nat i) (C !!! Z.to_nat i)]> C) C
      (range (len C))
  = imap g C.
Proof.
  apply list_eq. intros j. unfold len.
  rewrite foldl_pointwise_lookup, list_lookup_imap by done.
  case_decide as Hj; [done|].
  rewrite lookup_ge_None_2 by lia. done.
Qed.

Section pure_view.
Variables (K : list Z) (n : Z).
Hypothesis Hn : 0 < n.
Hypothesis HK : len K = n.

Lemma xor_key_pure (shift : Z) (C : list Z) :
  len C = n → xor_key K n shift C = Ret (imap (xor_key_at K n shift) C).
Proof using Hn HK.
  intros HC. unfold xor_key.
  rewrite <- (foldl_pointwise (xor_key_at K n shift)), HC.
  refine (proj1 (for_each_foldl (λ C, len C = n) _ _ _ _ C HC)).
  intros s i [Hi1 Hi2]%elem_of_range Hs.
  rewrite getitem_Ret, bind_Ret_l by lia.
  rewrite mod_Ret, bind_Ret_l by lia.
  pose proof (Z.mod_pos_bound (i + shift) n Hn).
  rewrite getitem_Ret, bind_Ret_l by lia.
  rewrite setitem_Ret by lia.
  unfold xor_key_at. rewrite Z2Nat.id by lia.
  split; [done|]. unfold len in *. rewrite length_insert. done.
Qed.

Lemma gather_pure (r : Z) (M_temp M : list Z) :
  len M_temp = n → len M = n →
  gather n (mult n) r M_temp M = Ret (imap (gather_at n r M_temp) M).
Proof using Hn.
  intros HT HM. unfold gather.
  rewrite <- (foldl_pointwise (gather_at n r M_temp)), HM.
  refine (proj1 (for_each_foldl (λ C, len C = n) _ _ _ _ M HM)).
  intros s i [Hi1 Hi2]%elem_of_range Hs.
  rewrite mod_Ret, bind_Ret_l by lia.
  pose proof (new_pos_range n r i Hn) as Hp. unfold new_pos in Hp.
  rewrite getitem_Ret, bind_Ret_l by lia.
  rewrite setitem_Ret by lia.
  unfold gather_at, new_pos. rewrite Z2Nat.id by lia.
  split; [done|]. unfold len in *. rewrite length_insert. done.
Qed.

Lemma scatter_pure (r : Z) (C_temp C : list Z) :
  len C_temp = n → len C = n →
  scatter n (mult n) r C_temp C
  = Ret (foldl (scatter_step n r C_temp) C (range n)).
Proof using Hn.
  intros HT HC. unfold scatter.
  refine (proj1 (for_each_foldl (λ C, len C = n) _ _ _ _ C HC)).
  intros s i [Hi1 Hi2]%elem_of_range Hs.
  rewrite mod_Ret, bind_Ret_l by lia.
  rewrite getitem_Ret, bind_Ret_l by lia.
  pose proof (new_pos_range n r i Hn) as Hp. unfold new_pos in Hp.
  rewrite setitem_Ret by lia.
  split; [done|]. unfold scatter_step, len in *. rewrite length_insert. done.
Qed.
End pure_view.

Lemma length_foldl_scatter_step (n r : Z) (C_temp : list Z) idx (C : list Z) :
  length (foldl (scatter_step n r C_temp) C idx) = length C.
Proof.
  revert C. induction idx as [|i idx IH]; intros C; simpl; [done|].
  rewrite IH. unfold scatter_step. by rewrite length_insert.
Qed.

Lemma len_ENC_round_pure (K : list Z) (n : Z) (C : list Z) (r : Z) :
  len (ENC_round_pure K n C r) = len C.
Proof.
  unfold ENC_round_pure, len.
  by rewrite length_foldl_scatter_step, length_imap.
Qed.

Lemma len_DEC_round_pure (K : list Z) (n : Z) (M : list Z) (r : Z) :
  len (DEC_round_pure K n M r) = len M.
Proof. unfold DEC_round_pure, len. by rewrite !length_imap. Qed.

Section rounds_pure.
Variables (K : list Z) (n : Z).
Hypothesis Hn : 0 < n.
Hypothesis HK : len K = n.

Lemma ENC_round_Ret (C : list Z) (r : Z) :
  len C = n → ENC_round K n C r = Ret (ENC_round_pure K n C r).
Proof using Hn HK.
  intros HC. unfold ENC_round.
  rewrite mod_Ret, bind_Ret_l by lia.
  rewrite xor_key_pure, bind_Ret_l by done.
  rewrite mult_of_Ret, bind_Ret_l.
  rewrite scatter_pure; [done | done | |]; unfold len in *;
    by rewrite length_imap.
Qed.

Lemma DEC_round_Ret (M : list Z) (r : Z) :
  len M = n → DEC_round K n M r = Ret (DEC_round_pure K n M r).
Proof using Hn HK.
  intros HM. unfold DEC_round.
  rewrite mult_of_Ret, bind_Ret_l.
  rewrite gather_pure, bind_Ret_l by done.
  rewrite mod_Ret, bind_Ret_l by lia.
  rewrite xor_key_pure; [done | done | done |].
  unfold len in *. by rewrite length_imap.
Qed.

Lemma ENC_rounds_Ret idx (C : list Z) :
  len C = n →
  for_each (ENC_round K n) idx C = Ret (foldl (ENC_round_pure K n) C idx).
Proof using Hn HK.
  intros HC.
  apply (for_each_foldl (λ C, len C = n)); [|done].
  intros s i _ Hs. split; [by apply ENC_round_Ret|].
  by rewrite len_ENC_round_pure.
Qed.

Lemma DEC_rounds_Ret idx (M : list Z) :
  len M = n →
  for_each (DEC_round K n) idx M = Ret (foldl (DEC_round_pure K n) M idx).
Proof using Hn HK.
  intros HM.
  apply (for_each_foldl (λ C, len C = n)); [|done].
  intros s i _ Hs. split; [by apply DEC_round_Ret|].
  by rewrite len_DEC_round_pure.
Qed.
End rounds_pure.

(** ENC and DEC return on every key and buffer of one positive length. *)
Lemma ENC_Ret (K M : list Z) :
  len K = len M → 0 < len M →
  ENC K M = Ret (foldl (ENC_round_pure K (len M)) M (range rounds)).
Proof.
  intros HK Hn. unfold ENC. rewrite decide_False by lia.
  by apply ENC_rounds_Ret.
Qed.

Lemma DEC_Ret (K C : list Z) :
  len K = len C → 0 < len C →
  DEC K C = Ret (foldl (DEC_round_pure K (len C)) C (range_down (rounds - 1))).
Proof.
  intros HK Hn. unfold DEC. rewrite decide_False by lia.
  by apply DEC_rounds_Ret.
Qed.

Lemma len_foldl_ENC_round_pure (K : list Z) (n : Z) idx (C : list Z) :
  len (foldl (ENC_round_pure K n) C idx) = len C.
Proof.
  revert C. induction idx as [|i idx IH]; intros C; simpl; [done|].
  by rewrite IH, len_ENC_round_pure.
Qed.

Lemma len_foldl_DEC_round_pure (K : list Z) (n : Z) idx (M : list Z) :
  len (foldl (DEC_round_pure K n) M idx) = len M.
Proof.
  revert M. induction idx as [|i idx IH]; intros M; simpl; [done|].
  by rewrite IH, len_DEC_round_pure.
Qed.

(** ** The position mapping *)

Lemma mult_coprime (n : Z) : n `mod` 15 ≠ 0 → Z.gcd (mult n) n = 1.
Proof.
  intros H15. unfold mult.
  assert (∀ p, (p = 3 ∨ p = 5) → n `mod` p ≠ 0 → Z.gcd p n = 1) as Hp.
  { intros p Hp Hnp.
    pose proof (Z.gcd_nonneg p n) as Hg0.
    pose proof (Z.gcd_divide_l p n) as [a Ha].
    pose proof (Z.gcd_divide_r p n) as [b Hb].
    assert (Z.gcd p n ≠ p) as Hne.
    { intros Heq. apply Hnp. rewrite Hb, Heq. apply Z.mod_mul. lia. }
    assert (Z.gcd p n ≤ p) as Hle.
    { apply Z.divide_pos_le; [lia|]. by exists a. }
    assert (Z.gcd p n ≠ 0) as Hnz by (intros Hz; rewrite Hz in Ha; lia).
    clear Hb. revert Ha Hne Hle Hnz Hg0. generalize (Z.gcd p n) as g. intros g.
    destruct Hp as [-> | ->]; intros Ha ? ? ? ?.
    + assert (g = 1 ∨ g = 2) as [->| ->] by lia; lia.
    + assert (g = 1 ∨ g = 2 ∨ g = 3 ∨ g = 4) as [->|[->|[->| ->]]] by lia; lia. }
  case_decide as H3.
  - apply Hp; [by left | done].
  - apply Hp; [by right |].
    intros H5. apply H15.
    apply Z.mod_divide in H3 as [a Ha]; [|lia].
    apply Z.mod_divide in H5 as [b Hb]; [|lia].
    apply Z.mod_divide; [lia|]. exists (2 * a - 3 * b). lia.
Qed.

(** On a length that is no multiple of 15 no two positions collide. *)
Lemma new_pos_inj (n r i j : Z) :
  0 < n → n `mod` 15 ≠ 0 → 0 ≤ i < n → 0 ≤ j < n →
  new_pos n r i = new_pos n r j → i = j.
Proof.
  intros Hn H15 Hi Hj Heq. unfold new_pos in Heq.
  assert ((n | mult n * (i - j))) as Hdiv.
  { apply Z.mod_divide; [lia|].
    replace (mult n * (i - j))
      with ((i * mult n + r * 7) - (j * mult n + r * 7)) by lia.
    rewrite Zminus_mod, Heq, Z.sub_diag. apply Z.mod_0_l. lia. }
  apply Z.gauss in Hdiv; [|rewrite Z.gcd_comm; by apply mult_coprime].
  destruct Hdiv as [q Hq].
  assert (q < 1) by nia. assert (-1 < q) by nia.
  assert (q = 0) as -> by lia. lia.
Qed.

(** ** A round of DEC undoes a round of ENC *)

Section round_inverse.
Variables (K : list Z) (n : Z).
Hypothesis Hn : 0 < n.
Hypothesis H15 : n `mod` 15 ≠ 0.

(** After the first [k] iterations of the scatter, position [new_pos i]
    holds [C_temp[i]] for every [i < k]: no later write lands on it. *)
Lemma scatter_prefix_lookup (r : Z) (C_temp C : list Z) (k i : nat) :
  len C = n → (k ≤ Z.to_nat n)%nat → (i < k)%nat →
  foldl (scatter_step n r C_temp) C (range (Z.of_nat k))
      !!! Z.to_nat (new_pos n r (Z.of_nat i))
  = C_temp !!! i.
Proof using Hn H15.
  intros HC. induction k as [|k IH]; intros Hk Hi; [lia|].
  rewrite range_S, foldl_snoc. unfold scatter_step at 1.
  pose proof (new_pos_range n r (Z.of_nat k) Hn) as Hpk.
  pose proof (new_pos_range n r (Z.of_nat i) Hn) as Hpi.
  destruct (decide (i = k)) as [->|Hik].
  - rewrite list_lookup_total_insert_eq, Nat2Z.id; [done|].
    rewrite length_foldl_scatter_step. unfold len in HC. lia.
  - rewrite list_lookup_total_insert_ne; [apply IH; lia|].
    intros Heq. apply Hik. apply Z2Nat.inj in Heq; [|lia..].
    apply new_pos_inj in Heq; lia.
Qed.

Lemma gather_scatter (r : Z) (X : list Z) :
  len X = n →
  let Y := foldl (scatter_step n r X) X (range n) in
  imap (gather_at n r Y) Y = X.
Proof using Hn H15.
  intros HX Y.
  assert (length Y = length X) as HY by apply length_foldl_scatter_step.
  apply list_eq. intros j. rewrite list_lookup_imap.
  destruct (decide (j < length X)%nat) as [Hj|Hj].
  - destruct (lookup_lt_is_Some_2 Y j) as [y Hy]; [lia|]. rewrite Hy. simpl.
    pose proof (scatter_prefix_lookup r X X (Z.to_nat n) j HX) as Hs.
    rewrite Z2Nat.id in Hs by lia. unfold len in HX.
    unfold gather_at. fold Y in Hs. rewrite Hs by lia.
    symmetry. by apply list_lookup_lookup_total_lt.
  - rewrite !lookup_ge_None_2 by lia. done.
Qed.

Lemma xor_key_involutive (shift : Z) (C : list Z) :
  imap (xor_key_at K n shift) (imap (xor_key_at K n shift) C) = C.
Proof.
  apply list_eq. intros j. rewrite !list_lookup_imap.
  destruct (C !! j) as [c|]; [|done]. simpl. f_equal.
  unfold xor_key_at.
  by rewrite Z.lxor_assoc, Z.lxor_nilpotent, Z.lxor_0_r.
Qed.

Lemma DEC_round_ENC_round (C : list Z) (r : Z) :
  len C = n →
  DEC_round_pure K n (ENC_round_pure K n C r) r = C.
Proof using Hn H15.
  intros HC. unfold DEC_round_pure, ENC_round_pure.
  rewrite gather_scatter; [apply xor_key_involutive|].
  unfold len in *. by rewrite length_imap.
Qed.

(** Undoing the rounds in reverse order undoes them all. *)
Lemma DEC_rounds_ENC_rounds idx (C : list Z) :
  len C = n →
  foldl (DEC_round_pure K n) (foldl (ENC_round_pure K n) C idx) (reverse idx)
  = C.
Proof using Hn H15.
  revert C. induction idx as [|r idx IH]; intros C HC; [done|].
  rewrite reverse_cons, foldl_app. simpl.
  rewrite IH by (by rewrite len_ENC_round_pure).
  by apply DEC_round_ENC_round.
Qed.
End round_inverse.

(** The round-trip law on the lengths where the position mapping is a
    bijection: every positive length that is no multiple of 15. *)
Theorem DEC_ENC_roundtrip (K M : list Z) :
  len K = len M → 0 < len M → len M `mod` 15 ≠ 0 →
  ∃ C, ENC K M = Ret C ∧ DEC K C = Ret M.
Proof.
  intros HK Hn H15. eexists. split; [by apply ENC_Ret|].
  rewrite DEC_Ret; rewrite ?len_foldl_ENC_round_pure; [|done..].
  f_equal. by apply (DEC_rounds_ENC_rounds K (len M) Hn H15 (range rounds)).
Qed.

(** ** GEN against the key expander of the specification *)

Lemma land_shiftr_1 (byte i : Z) :
  0 ≤ i → Z.land (Z.shiftr byte i) 1 = Z.b2z (Z.testbit byte i).
Proof.
  intros Hi. change 1 with (Z.ones 1). rewrite Z.land_ones by lia.
  change (2 ^ 1) with 2. rewrite <- Z.bit0_mod, Z.shiftr_spec by lia.
  by rewrite Z.add_0_l.
Qed.

Lemma take_take_app {A} (k : nat) (a b : list A) :
  take k (take k a ++ b) = take k (a ++ b).
Proof.
  destruct (decide (length a ≤ k)%nat) as [Hle|Hgt].
  - by rewrite (take_ge a) by done.
  - rewrite (take_app_le a) by lia.
    rewrite take_app_le by (rewrite length_take; lia).
    by rewrite take_take, Nat.min_id.
Qed.

(** Appending under the guard [len(key_bits) < key_len] is appending and
    cutting at [key_len]. *)
Lemma guarded_append {A} (f : A → Z) (k : Z) (xs : list A) (kb : list Z) :
  len kb ≤ k →
  foldl (λ kb x, if decide (len kb < k) then kb ++ [f x] else kb) kb xs
  = take (Z.to_nat k) (kb ++ (f <$> xs)).
Proof.
  revert kb. induction xs as [|x xs IH]; intros kb Hkb; simpl.
  - rewrite app_nil_r, take_ge; [done | unfold len in *; lia].
  - case_decide as Hlt.
    + rewrite IH, <- app_assoc; [done|].
      unfold len in *. rewrite length_app. simpl. lia.
    + rewrite IH by done.
      assert (Z.to_nat k = length kb) as -> by (unfold len in *; lia).
      by rewrite !take_app_length.
Qed.

Lemma append_byte_take (k : Z) (kb : list Z) (byte : Z) :
  len kb ≤ k →
  append_byte k kb byte = take (Z.to_nat k) (kb ++ byte_bits byte).
Proof.
  intros Hkb. unfold append_byte.
  rewrite (guarded_append (λ i, Z.land (Z.shiftr byte (7 - i)) 1)) by done.
  do 2 f_equal. unfold byte_bits. change (range 8) with [0; 1; 2; 3; 4; 5; 6; 7].
  simpl. by rewrite !land_shiftr_1 by lia.
Qed.

Lemma append_digest_take (k : Z) (bytes kb : list Z) :
  len kb ≤ k →
  append_digest k kb bytes = take (Z.to_nat k) (kb ++ flat_map byte_bits bytes).
Proof.
  unfold append_digest. revert kb.
  induction bytes as [|b bytes IH]; intros kb Hkb; simpl.
  - rewrite app_nil_r, take_ge; [done | unfold len in *; lia].
  - rewrite append_byte_take by done.
    rewrite IH, take_take_app, <- app_assoc; [done|].
    unfold len in *. rewrite length_take. lia.
Qed.

(** [encode] returns on the seeds that hold no surrogate and raises
    [UnicodeEncodeError] on the others. *)
Lemma encode_char_Ret (c : Z) :
  ¬ surrogate c → ∃ data, encode_char c = Ret data.
Proof.
  unfold surrogate, encode_char. intros Hc.
  repeat case_decide; try lia; eauto.
Qed.

Lemma encode_char_Raise (c : Z) (e : exn) :
  encode_char c = Raise e → e = UnicodeEncodeError ∧ surrogate c.
Proof.
  unfold surrogate, encode_char.
  repeat case_decide; intros He; try discriminate.
  split; [congruence | done].
Qed.

Lemma encode_utf8 (s : list Z) : encodable s → encode s = Ret (utf8 s).
Proof.
  unfold utf8. induction 1 as [|c s Hc _ IH]; [done|]. cbn [encode].
  destruct (encode_char_Ret c Hc) as [b ->].
  destruct (encode s) as [bs|e]; [done | discriminate].
Qed.

Lemma encode_Raise (s : list Z) (e : exn) :
  encode s = Raise e → e = UnicodeEncodeError ∧ ¬ encodable s.
Proof.
  induction s as [|c s IH]; [discriminate|]. cbn [encode].
  destruct (encode_char c) as [b|e'] eqn:Hc.
  - destruct (encode s) as [bs|e'']; [discriminate|].
    intros [= <-]. destruct (IH eq_refl) as [-> Hs].
    split; [done|]. intros Henc. by inversion Henc.
  - intros [= <-]. destruct (encode_char_Raise c e' Hc) as [-> Hsur].
    split; [done|]. intros Henc. by inversion Henc.
Qed.

#[global] Instance encodable_dec (s : list Z) : Decision (encodable s).
Proof. unfold encodable, surrogate. apply _. Defined.

Lemma encode_not_encodable (s : list Z) :
  ¬ encodable s → encode s = Raise UnicodeEncodeError.
Proof.
  intros Hs. destruct (encode s) as [data|e] eqn:He.
  - destruct Hs. clear -He. revert data He.
    induction s as [|c s IH]; intros data; [constructor|]. cbn [encode].
    destruct (encode_char c) as [b|e] eqn:Hc; [|discriminate].
    destruct (encode s) as [bs|e]; [|discriminate]. intros _.
    constructor; [|by eapply IH].
    intros Hsur. revert Hc. unfold surrogate, encode_char in *.
    repeat case_decide; (discriminate || lia).
  - by destruct (encode_Raise s e He) as [-> _].
Qed.

Lemma encodable_codepoints (s : string) : encodable (codepoints s).
Proof.
  unfold encodable, codepoints, surrogate. apply Forall_fmap, Forall_forall.
  intros a _. simpl. pose proof (nat_ascii_bounded a). lia.
Qed.

Lemma encodable_app (s t : list Z) :
  encodable s → encodable t → encodable (s ++ t).
Proof. apply Forall_app_2. Qed.

Lemma length_codepoints (s : string) :
  length (codepoints s) = String.length s.
Proof.
  unfold codepoints. rewrite length_fmap.
  induction s as [|a s IH]; simpl; congruence.
Qed.

Section GEN_correct.
Variable sha256 : list Z → list Z.
Hypothesis digest_size : ∀ msg, length (sha256 msg) = 32%nat.

Lemma length_byte_bits (b : Z) : length (byte_bits b) = 8%nat.
Proof. reflexivity. Qed.

Lemma key_stream_S (seed : list Z) (c : nat) :
  key_stream sha256 seed (S c)
  = key_stream sha256 seed c ++ flat_map byte_bits (block_digest sha256 seed c).
Proof.
  unfold key_stream. rewrite seq_S, flat_map_app. simpl.
  by rewrite app_nil_r.
Qed.

Lemma length_block_bits (seed : list Z) (c : nat) :
  length (flat_map byte_bits (block_digest sha256 seed c)) = 256%nat.
Proof using digest_size.
  assert (∀ d : list Z,
    length (flat_map byte_bits d) = (8 * length d)%nat) as Hflat.
  { induction d as [|b d IH]; [done|]. cbn [flat_map].
    rewrite length_app, IH, length_byte_bits. cbn [length]. lia. }
  rewrite Hflat. destruct c; cbn [block_digest]; rewrite digest_size; done.
Qed.

Lemma length_key_stream (seed : list Z) (c : nat) :
  length (key_stream sha256 seed c) = (256 * c)%nat.
Proof using digest_size.
  induction c as [|c IH]; [done|].
  rewrite key_stream_S, length_app, IH, length_block_bits. lia.
Qed.

(** Once the stream holds [k] bits, more blocks do not change its first
    [k] bits. *)
Lemma take_key_stream_more (seed : list Z) (k c d : nat) :
  (k ≤ 256 * c)%nat →
  take k (key_stream sha256 seed (c + d)) = take k (key_stream sha256 seed c).
Proof using digest_size.
  intros Hk. induction d as [|d IH]; [by rewrite Nat.add_0_r|].
  rewrite Nat.add_succ_r, key_stream_S, take_app_le; [done|].
  rewrite length_key_stream. lia.
Qed.

(** The digest the loop uses in its pass [c] is the digest of block
    [c]. *)
Lemma next_digest_block (seed : list Z) (c : nat) (hash_bytes : list Z) :
  encodable seed →
  (c = 0%nat → hash_bytes = sha256 (utf8 seed)) →
  next_digest sha256 seed hash_bytes (Z.of_nat c)
  = Ret (block_digest sha256 seed c).
Proof.
  intros Hseed Hhb. unfold next_digest. destruct c as [|c]; cbn [block_digest].
  - rewrite decide_False by lia. f_equal. by apply Hhb.
  - rewrite decide_True by lia.
    by rewrite encode_utf8
      by (apply encodable_app; [done | apply encodable_codepoints]).
Qed.

(** The loop, entered after [c] blocks with the stream so far cut at
    [key_len], ends within [fuel] more blocks when these reach the
    target, with the stream cut at [key_len]. *)
Lemma GEN_while_key_stream (seed : list Z) (k : nat) (fuel c : nat)
    (hash_bytes : list Z) :
  encodable seed →
  (c = 0%nat → hash_bytes = sha256 (utf8 seed)) →
  (k ≤ 256 * (c + fuel))%nat →
  GEN_while sha256 fuel seed (Z.of_nat k) hash_bytes
    (take k (key_stream sha256 seed c)) (Z.of_nat c)
  = Some (Ret (take k (key_stream sha256 seed (c + fuel)))).
Proof using digest_size.
  intros Hseed. revert c hash_bytes.
  induction fuel as [|fuel IH]; intros c hb Hhb Hk.
  - simpl. rewrite decide_False; [by rewrite Nat.add_0_r|].
    unfold len. rewrite length_take, length_key_stream. lia.
  - cbn [GEN_while]. case_decide as Hlt.
    + rewrite next_digest_block by done.
      rewrite append_digest_take
        by (unfold len; rewrite length_take; lia).
      rewrite Nat2Z.id, take_take_app, <- key_stream_S.
      replace (Z.of_nat c + 1) with (Z.of_nat (S c)) by lia.
      rewrite IH; [|done|lia]. do 4 f_equal. lia.
    + do 2 f_equal. rewrite take_key_stream_more; [done|].
      unfold len in Hlt. rewrite length_take, length_key_stream in Hlt. lia.
Qed.

Lemma GEN_expand_key (fuel : nat) (seed : list Z) :
  encodable seed →
  (4 * length seed ≤ 256 * fuel)%nat →
  GEN sha256 fuel seed = Some (Ret (expand_key sha256 fuel seed)).
Proof using digest_size.
  intros Hseed Hfuel. unfold GEN, expand_key, len.
  rewrite encode_utf8 by done.
  replace (4 * Z.of_nat (length seed))
    with (Z.of_nat (4 * length seed)) by lia.
  generalize dependent (4 * length seed)%nat. intros k Hfuel.
  pose proof (GEN_while_key_stream seed k fuel 0
                (sha256 (utf8 seed)) Hseed (λ _, eq_refl) Hfuel) as HW.
  change (key_stream sha256 seed 0) with (@nil Z) in HW.
  rewrite take_nil in HW. change (Z.of_nat 0) with 0 in HW.
  rewrite HW. cbn [Nat.add].
  by rewrite Nat2Z.id, take_take, Nat.min_id.
Qed.

(** A seed that holds a surrogate makes GEN raise, at its first call of
    [encode], whatever the fuel. *)
Lemma GEN_not_encodable (fuel : nat) (seed : list Z) :
  ¬ encodable seed → GEN sha256 fuel seed = Some (Raise UnicodeEncodeError).
Proof. intros Hseed. unfold GEN. by rewrite encode_not_encodable. Qed.

Lemma length_expand_key (fuel : nat) (seed : list Z) :
  (4 * length seed ≤ 256 * fuel)%nat →
  length (expand_key sha256 fuel seed) = (4 * length seed)%nat.
Proof using digest_size.
  intros Hfuel. unfold expand_key.
  rewrite length_take, length_key_stream. lia.
Qed.
End GEN_correct.

(** ** Lengths and bit values are kept by every loop *)

Lemma is_bit_lxor (a b : Z) : is_bit a → is_bit b → is_bit (Z.lxor a b).
Proof. intros [-> | ->] [-> | ->]; compute; auto. Qed.

Lemma is_bit_land_1 (a : Z) : is_bit (Z.land a 1).
Proof.
  change 1 with (Z.ones 1) at 1. rewrite Z.land_ones by lia.
  change (2 ^ 1) with 2. unfold is_bit.
  pose proof (Z.mod_pos_bound a 2). lia.
Qed.

Section loop_invariants.
(** A property of buffers kept by an in-place write of a value taken
    from lists that have it: the length, or holding bits only. *)
Variable P : list Z → Prop.
Variable V : Z → Prop.
Hypothesis P_elem : ∀ l x, P l → x ∈ l → V x.
Hypothesis P_insert : ∀ l (j : nat) x, P l → V x → P (<[j := x]> l).
Hypothesis V_lxor : ∀ a b, V a → V b → V (Z.lxor a b).

Lemma xor_key_inv (K : list Z) (n shift : Z) (C C' : list Z) :
  P K → P C → xor_key K n shift C = Ret C' → P C'.
Proof using P_elem P_insert V_lxor.
  intros HK. unfold xor_key. apply for_each_inv. clear C C'.
  intros C i C' HC H. bind_inv H.
  apply setitem_Ret_inv in H as [j ->].
  apply P_insert; [done|].
  apply V_lxor; [apply (P_elem C) | apply (P_elem K)];
    eauto using getitem_Ret_inv.
Qed.

Lemma scatter_inv (n m r : Z) (C_temp C C' : list Z) :
  P C_temp → P C → scatter n m r C_temp C = Ret C' → P C'.
Proof using P_elem P_insert.
  intros HT. unfold scatter. apply for_each_inv. clear C C'.
  intros C i C' HC H. bind_inv H.
  apply setitem_Ret_inv in H as [j ->].
  apply P_insert; [done|]. apply (P_elem C_temp); eauto using getitem_Ret_inv.
Qed.

Lemma gather_inv (n m r : Z) (M_temp M M' : list Z) :
  P M_temp → P M → gather n m r M_temp M = Ret M' → P M'.
Proof using P_elem P_insert.
  intros HT. unfold gather. apply for_each_inv. clear M M'.
  intros M i M' HM H. bind_inv H.
  apply setitem_Ret_inv in H as [j ->].
  apply P_insert; [done|]. apply (P_elem M_temp); eauto using getitem_Ret_inv.
Qed.

Lemma ENC_inv (K M C : list Z) : P K → P M → ENC K M = Ret C → P C.
Proof using P_elem P_insert V_lxor.
  intros HK HM. unfold ENC. case_decide; [discriminate|].
  cbn zeta. generalize (len M) as n. intros n.
  revert HM. apply for_each_inv.
  intros C0 r C' HC H0. unfold ENC_round in H0. bind_inv H0.
  pose proof (xor_key_inv K n a C0 a0 HK HC Ha0) as HX.
  exact (scatter_inv n a1 r a0 a0 C' HX HX H0).
Qed.

Lemma DEC_inv (K C M : list Z) : P K → P C → DEC K C = Ret M → P M.
Proof using P_elem P_insert V_lxor.
  intros HK HC. unfold DEC. case_decide; [discriminate|].
  cbn zeta. generalize (len C) as n. intros n.
  revert HC. apply for_each_inv.
  intros M0 r M' HM H0. unfold DEC_round in H0. bind_inv H0.
  pose proof (gather_inv n a r M0 M0 a0 HM HM Ha0) as HY.
  exact (xor_key_inv K n a1 a0 M' HK HY H0).
Qed.
End loop_invariants.

Lemma ENC_Ret_len (K M C : list Z) : ENC K M = Ret C → len K = len M.
Proof. unfold ENC. case_decide; [discriminate | lia]. Qed.

Lemma DEC_Ret_len (K C M : list Z) : DEC K C = Ret M → len K = len C.
Proof. unfold DEC. case_decide; [discriminate | lia]. Qed.

Lemma ENC_DEC_same_length (K X Y : list Z) :
  ENC K X = Ret Y ∨ DEC K X = Ret Y → length Y = length X.
Proof.
  pose (P := λ l : list Z, length l = length K).
  assert (∀ l (j : nat) x, P l → True → P (<[j:=x]> l)) as Hins
    by (intros; unfold P; by rewrite length_insert).
  intros [H|H].
  - pose proof (ENC_Ret_len _ _ _ H) as HK. unfold len in HK.
    apply (ENC_inv P (λ _, True)) in H; unfold P in *; auto; lia.
  - pose proof (DEC_Ret_len _ _ _ H) as HK. unfold len in HK.
    apply (DEC_inv P (λ _, True)) in H; unfold P in *; auto; lia.
Qed.

Lemma ENC_DEC_bits (K X Y : list Z) :
  Forall is_bit K → Forall is_bit X →
  ENC K X = Ret Y ∨ DEC K X = Ret Y → Forall is_bit Y.
Proof.
  intros HK HX.
  assert (∀ (l : list Z) x, Forall is_bit l → x ∈ l → is_bit x) as Helem
    by (intros l x Hl; by apply Forall_forall).
  assert (∀ (l : list Z) (j : nat) x,
            Forall is_bit l → is_bit x → Forall is_bit (<[j:=x]> l)) as Hins
    by (intros; by apply Forall_insert).
  intros [H|H].
  - by apply (ENC_inv (Forall is_bit) is_bit Helem Hins is_bit_lxor) in H.
  - by apply (DEC_inv (Forall is_bit) is_bit Helem Hins is_bit_lxor) in H.
Qed.

Lemma append_digest_bits (k : Z) (bytes kb : list Z) :
  Forall is_bit kb → Forall is_bit (append_digest k kb bytes).
Proof.
  unfold append_digest. revert kb.
  induction bytes as [|b bytes IH]; intros kb Hkb; [done|].
  simpl. apply IH. unfold append_byte.
  generalize (range 8) as idx. intros idx. revert kb Hkb.
  induction idx as [|i idx IHi]; intros kb Hkb; [done|].
  simpl. apply IHi. case_decide; [|done].
  apply Forall_app. split; [done|]. apply Forall_singleton, is_bit_land_1.
Qed.

Lemma GEN_bits (sha256 : list Z → list Z) (fuel : nat) (seed : list Z)
    (key : list Z) :
  GEN sha256 fuel seed = Some (Ret key) → Forall is_bit key.
Proof.
  unfold GEN. destruct (encode seed) as [data|e]; [|discriminate].
  destruct (GEN_while _ _ _ _ _ _ _) as [[kb|e]|] eqn:HW; try discriminate.
  intros [= <-]. apply Forall_take.
  revert HW. generalize (sha256 data) as hb.
  assert (Forall is_bit (@nil Z)) as Hnil by constructor.
  revert Hnil. generalize (@nil Z) as kb0. generalize 0 as c.
  induction fuel as [|fuel IH]; intros c kb0 Hkb0 hb; cbn [GEN_while];
    case_decide; try discriminate; try (by intros [= <-]).
  destruct (next_digest _ _ _ _) as [hb'|e]; [|discriminate].
  apply IH. by apply append_digest_bits.
Qed.

(** ** ENC is affine over XOR *)

Lemma lxor_3_3 (a b c k1 k2 k3 : Z) :
  Z.lxor (Z.lxor (Z.lxor a b) c) (Z.lxor (Z.lxor k1 k2) k3)
  = Z.lxor (Z.lxor (Z.lxor a k1) (Z.lxor b k2)) (Z.lxor c k3).
Proof.
  apply Z.bits_inj'. intros i _. rewrite !Z.lxor_spec.
  by destruct (Z.testbit a i), (Z.testbit b i), (Z.testbit c i),
    (Z.testbit k1 i), (Z.testbit k2 i), (Z.testbit k3 i).
Qed.

Lemma length_xor3 (A B C : list Z) :
  length B = length A → length C = length A → length (xor3 A B C) = length A.
Proof.
  intros HB HC. unfold xor3, xor_list. rewrite !length_zip_with. lia.
Qed.

Lemma lookup_total_xor3 (A B C : list Z) (i : nat) :
  (i < length A)%nat → length B = length A → length C = length A →
  xor3 A B C !!! i = Z.lxor (Z.lxor (A !!! i) (B !!! i)) (C !!! i).
Proof.
  intros Hi HB HC. unfold xor3, xor_list.
  destruct (lookup_lt_is_Some_2 A i) as [a Ha]; [lia|].
  destruct (lookup_lt_is_Some_2 B i) as [b Hb]; [lia|].
  destruct (lookup_lt_is_Some_2 C i) as [c Hc]; [lia|].
  rewrite !list_lookup_total_alt, !lookup_zip_with, Ha, Hb, Hc. done.
Qed.

Lemma insert_xor3 (A B C : list Z) (i : nat) (a b c : Z) :
  <[i := Z.lxor (Z.lxor a b) c]> (xor3 A B C)
  = xor3 (<[i := a]> A) (<[i := b]> B) (<[i := c]> C).
Proof. unfold xor3, xor_list. by rewrite !insert_zip_with. Qed.

Section affine.
Variable n : Z.
Hypothesis Hn : 0 < n.

Lemma xor_key_xor3 (shift : Z) (K1 K2 K3 A B C : list Z) :
  len K1 = n → len K2 = n → len K3 = n →
  imap (xor_key_at (xor3 K1 K2 K3) n shift) (xor3 A B C)
  = xor3 (imap (xor_key_at K1 n shift) A) (imap (xor_key_at K2 n shift) B)
      (imap (xor_key_at K3 n shift) C).
Proof using Hn.
  intros H1 H2 H3. unfold len in *. apply list_eq. intros j.
  unfold xor3 at 2 3, xor_list.
  rewrite list_lookup_imap, !lookup_zip_with, !list_lookup_imap.
  destruct (A !! j) as [a|]; [|done]. destruct (B !! j) as [b|]; [|done].
  destruct (C !! j) as [c|]; [|done]. simpl. f_equal.
  unfold xor_key_at.
  pose proof (Z.mod_pos_bound (Z.of_nat j + shift) n Hn).
  rewrite lookup_total_xor3 by lia. apply lxor_3_3.
Qed.

Lemma scatter_xor3 (r : Z) idx (TA TB TC CA CB CC : list Z) :
  len TA = n → len TB = n → len TC = n →
  (∀ i, i ∈ idx → 0 ≤ i < n) →
  foldl (scatter_step n r (xor3 TA TB TC)) (xor3 CA CB CC) idx
  = xor3 (foldl (scatter_step n r TA) CA idx)
      (foldl (scatter_step n r TB) CB idx)
      (foldl (scatter_step n r TC) CC idx).
Proof using Hn.
  intros HA HB HC. unfold len in *. revert CA CB CC.
  induction idx as [|i idx IH]; intros CA CB CC Hidx; [done|].
  simpl. rewrite <- IH by (intros; apply Hidx; by right). f_equal.
  unfold scatter_step. specialize (Hidx i (list_elem_of_here _ _)).
  rewrite lookup_total_xor3 by lia. apply insert_xor3.
Qed.

Lemma ENC_round_xor3 (r : Z) (K1 K2 K3 A B C : list Z) :
  len K1 = n → len K2 = n → len K3 = n →
  len A = n → len B = n → len C = n →
  ENC_round_pure (xor3 K1 K2 K3) n (xor3 A B C) r
  = xor3 (ENC_round_pure K1 n A r) (ENC_round_pure K2 n B r)
      (ENC_round_pure K3 n C r).
Proof using Hn.
  intros H1 H2 H3 HA HB HC. unfold ENC_round_pure. cbn zeta.
  rewrite xor_key_xor3 by done.
  apply scatter_xor3; unfold len in *; rewrite ?length_imap; try done.
  intros i. apply elem_of_range.
Qed.

Lemma ENC_rounds_xor3 idx (K1 K2 K3 A B C : list Z) :
  len K1 = n → len K2 = n → len K3 = n →
  len A = n → len B = n → len C = n →
  foldl (ENC_round_pure (xor3 K1 K2 K3) n) (xor3 A B C) idx
  = xor3 (foldl (ENC_round_pure K1 n) A idx)
      (foldl (ENC_round_pure K2 n) B idx)
      (foldl (ENC_round_pure K3 n) C idx).
Proof using Hn.
  intros H1 H2 H3. revert A B C.
  induction idx as [|r idx IH]; intros A B C HA HB HC; [done|].
  simpl. rewrite ENC_round_xor3 by done.
  apply IH; by rewrite len_ENC_round_pure.
Qed.
End affine.

(** ENC is affine in the key and the message together. *)
Lemma ENC_xor3 (K1 K2 K3 M1 M2 M3 : list Z) :
  0 < len M1 →
  len K1 = len M1 → len K2 = len M1 → len K3 = len M1 →
  len M2 = len M1 → len M3 = len M1 →
  ∃ C1 C2 C3,
    ENC K1 M1 = Ret C1 ∧ ENC K2 M2 = Ret C2 ∧ ENC K3 M3 = Ret C3 ∧
    ENC (xor3 K1 K2 K3) (xor3 M1 M2 M3) = Ret (xor3 C1 C2 C3).
Proof.
  intros Hn HK1 HK2 HK3 HM2 HM3.
  assert (len (xor3 M1 M2 M3) = len M1) as HM
    by (unfold len in *; rewrite length_xor3; lia).
  assert (len (xor3 K1 K2 K3) = len M1) as HK
    by (unfold len in *; rewrite length_xor3; lia).
  do 3 eexists. repeat split.
  - by apply ENC_Ret.
  - apply ENC_Ret; lia.
  - apply ENC_Ret; lia.
  - rewrite ENC_Ret by lia. f_equal. rewrite HM, HM2, HM3.
    by apply ENC_rounds_xor3.
Qed.

(** ** The message part of ENC is a re-indexing *)

Lemma length_reindex (σ : nat → nat) (M : list Z) :
  length (reindex σ M) = length M.
Proof. unfold reindex. by rewrite length_fmap, length_seq. Qed.

Lemma lookup_reindex (σ : nat → nat) (M : list Z) (j : nat) :
  (j < length M)%nat → reindex σ M !! j = Some (M !!! σ j).
Proof.
  intros Hj. unfold reindex. rewrite list_lookup_fmap, lookup_seq_lt by done.
  done.
Qed.

Lemma reindex_id (M : list Z) : reindex id M = M.
Proof.
  apply list_eq. intros j. destruct (decide (j < length M)%nat) as [Hj|Hj].
  - rewrite lookup_reindex by done. symmetry.
    by apply list_lookup_lookup_total_lt.
  - rewrite !lookup_ge_None_2; rewrite ?length_reindex; [done|lia..].
Qed.

Lemma reindex_compose (σ1 σ2 : nat → nat) (M : list Z) :
  (∀ j, (j < length M)%nat → (σ2 j < length M)%nat) →
  reindex σ2 (reindex σ1 M) = reindex (σ1 ∘ σ2) M.
Proof.
  intros Hσ. apply list_eq. intros j.
  destruct (decide (j < length M)%nat) as [Hj|Hj].
  - rewrite !lookup_reindex; rewrite ?length_reindex; [|done..].
    f_equal. apply list_lookup_total_correct.
    rewrite lookup_reindex by auto. done.
  - rewrite !lookup_ge_None_2; rewrite ?length_reindex; [done|lia..].
Qed.

Lemma xor_list_zeros_r (A : list Z) (k : nat) :
  k = length A → xor_list A (replicate k 0) = A.
Proof.
  intros ->. apply list_eq. intros j. unfold xor_list.
  rewrite lookup_zip_with. destruct (A !! j) as [a|] eqn:Ha; [|done].
  simpl. rewrite lookup_replicate_2 by (by eapply lookup_lt_Some).
  simpl. by rewrite Z.lxor_0_r.
Qed.

Lemma xor_list_zeros_l (A : list Z) (k : nat) :
  k = length A → xor_list (replicate k 0) A = A.
Proof.
  intros ->. apply list_eq. intros j. unfold xor_list.
  rewrite lookup_zip_with. destruct (A !! j) as [a|] eqn:Ha.
  - rewrite lookup_replicate_2 by (by eapply lookup_lt_Some). done.
  - by destruct (replicate _ _ !! j).
Qed.

Lemma xor3_same (K : list Z) : xor3 K K K = K.
Proof.
  apply list_eq. intros j. unfold xor3, xor_list.
  rewrite !lookup_zip_with. destruct (K !! j) as [k|]; [|done].
  simpl. by rewrite Z.lxor_nilpotent, Z.lxor_0_l.
Qed.

Section reindexing.
Variable n : Z.
Hypothesis Hn : 0 < n.

Lemma xor_key_zeros (shift : Z) (C : list Z) :
  len C = n →
  imap (xor_key_at (replicate (Z.to_nat n) 0) n shift) C = C.
Proof using Hn.
  intros HC. apply list_eq. intros j. rewrite list_lookup_imap.
  destruct (C !! j) as [c|]; [|done]. simpl. f_equal. unfold xor_key_at.
  pose proof (Z.mod_pos_bound (Z.of_nat j + shift) n Hn).
  rewrite lookup_total_replicate_2 by lia. apply Z.lxor_0_r.
Qed.

Lemma scatter_reindex (r : Z) (X : list Z) idx (τ : nat → nat) :
  len X = n → (∀ i, i ∈ idx → 0 ≤ i < n) →
  foldl (scatter_step n r X) (reindex τ X) idx
  = reindex (foldl (scatter_index n r) τ idx) X.
Proof using Hn.
  intros HX. revert τ.
  induction idx as [|i idx IH]; intros τ Hidx; [done|].
  simpl. rewrite <- IH by (intros; apply Hidx; by right). f_equal.
  apply list_eq. intros j. unfold scatter_step, scatter_index.
  destruct (decide (j < length X)%nat) as [Hj|Hj].
  - rewrite lookup_reindex by done.
    case_decide as Hp; [subst j|].
    + rewrite list_lookup_insert_eq; [done|]. by rewrite length_reindex.
    + rewrite list_lookup_insert_ne by done. by rewrite lookup_reindex.
  - rewrite !lookup_ge_None_2;
      rewrite ?length_insert, ?length_reindex; [done|lia..].
Qed.

Lemma scatter_index_bound (r : Z) idx (τ : nat → nat) (j : nat) :
  (∀ i, i ∈ idx → 0 ≤ i < n) →
  (∀ j, (j < Z.to_nat n)%nat → (τ j < Z.to_nat n)%nat) →
  (j < Z.to_nat n)%nat →
  (foldl (scatter_index n r) τ idx j < Z.to_nat n)%nat.
Proof.
  revert τ. induction idx as [|i idx IH]; intros τ Hidx Hτ Hj; [by apply Hτ|].
  simpl. apply IH; [intros; apply Hidx; by right | | done].
  intros j' Hj'. unfold scatter_index. case_decide; [|by apply Hτ].
  specialize (Hidx i (list_elem_of_here _ _)). lia.
Qed.

Lemma round_index_bound (r : Z) (j : nat) :
  (j < Z.to_nat n)%nat → (round_index n r j < Z.to_nat n)%nat.
Proof.
  apply scatter_index_bound; [intros i; apply elem_of_range | done].
Qed.

Lemma ENC_round_zeros (r : Z) (X : list Z) :
  len X = n →
  ENC_round_pure (replicate (Z.to_nat n) 0) n X r
  = reindex (round_index n r) X.
Proof using Hn.
  intros HX. unfold ENC_round_pure. cbn zeta.
  rewrite xor_key_zeros by done.
  rewrite <- (reindex_id X) at 2. rewrite scatter_reindex; [done|done|].
  intros i. apply elem_of_range.
Qed.

Lemma ENC_rounds_zeros idx (σ : nat → nat) (M : list Z) :
  len M = n →
  foldl (ENC_round_pure (replicate (Z.to_nat n) 0) n) (reindex σ M) idx
  = reindex (foldl (λ σ r, σ ∘ round_index n r) σ idx) M.
Proof using Hn.
  intros HM. revert σ. induction idx as [|r idx IH]; intros σ; [done|].
  simpl. rewrite <- IH. f_equal.
  rewrite ENC_round_zeros by (unfold len in *; by rewrite length_reindex).
  apply reindex_compose. intros j Hj. unfold len in HM.
  pose proof (round_index_bound r j). lia.
Qed.
End reindexing.

(** With the all-zero key, ENC only moves the message around. *)
Lemma ENC_zeros_reindex (M : list Z) :
  0 < len M →
  ENC (replicate (length M) 0) M = Ret (reindex (ENC_index (len M)) M).
Proof.
  intros Hn. rewrite ENC_Ret; [|unfold len; by rewrite length_replicate|done].
  f_equal. rewrite <- (reindex_id M) at 3. unfold ENC_index.
  rewrite <- (ENC_rounds_zeros (len M) Hn) by done.
  unfold len. by rewrite Nat2Z.id.
Qed.

(** *** The object programs against the functions on values *)

Section frame.
Lemma updates_refl (C : Obj.loc) (h : Obj.store) : updates C h h.
Proof. by intros l _ _. Qed.

Lemma updates_trans (C : Obj.loc) (h1 h2 h3 : Obj.store) :
  updates C h1 h2 → updates C h2 h3 → updates C h1 h3.
Proof.
  intros H12 H23 l Hl Hsome. rewrite <- (H12 l Hl Hsome).
  apply H23; [done|]. by rewrite (H12 l Hl Hsome).
Qed.

Lemma updates_insert (C : Obj.loc) (h : Obj.store) (c : list Z) :
  updates C h (<[C := c]> h).
Proof. intros l Hl _. by rewrite lookup_insert_ne. Qed.

Lemma for_each_step_spec (C : Obj.loc) (I : Obj.store → Prop)
    (body : Z → Obj.prog unit) (f : list Z → Z → result (list Z)) :
  (∀ h h', I h → updates C h h' → I h') →
  (∀ i h c, h !! C = Some c → I h → step_spec C (body i) (f c i) h) →
  ∀ idx h c, h !! C = Some c → I h →
    step_spec C (Obj.for_each body idx) (Py.for_each f idx c) h.
Proof.
  intros HI Hbody. induction idx as [|i idx IH]; intros h c Hc Hh.
  - exists c. unfold Obj.for_each, Obj.ret, Py.for_each. simpl.
    split; [exact Hc|]. split; [apply updates_refl | by split].
  - destruct (Hbody i h c Hc Hh) as (c1 & Hc1 & Hup1 & Hres).
    unfold step_spec. cbn [Obj.for_each Py.for_each].
    unfold Obj.bind. cbn beta.
    destruct (body i h) as [res1 h1]. cbn [fst snd] in Hc1, Hup1, Hres.
    destruct (f c i) as [c2|e]; cbn [mbind result_bind Py.bind].
    + destruct Hres as [-> ->].
      destruct (IH h1 c2 Hc1 (HI _ _ Hh Hup1)) as (c3 & Hc3 & Hup3 & Hres3).
      exists c3. split; [exact Hc3|]. split; [|exact Hres3].
      exact (updates_trans _ _ _ _ Hup1 Hup3).
    + rewrite Hres. exists c1. by repeat split.
Qed.

Lemma xor_key_spec (K C : Obj.loc) (n shift : Z) (k c : list Z) (h : Obj.store) :
  K ≠ C → h !! K = Some k → h !! C = Some c →
  step_spec C (Obj.xor_key K n shift C) (xor_key k n shift c) h.
Proof.
  intros HKC HK HC. unfold Obj.xor_key, xor_key.
  apply (for_each_step_spec C (λ h, h !! K = Some k)); [|clear c h HK HC|done..].
  { intros h1 h2 H1 Hup. rewrite (Hup K); [done|done|]. by rewrite H1. }
  intros i h c HC HK.
  unfold step_spec, Obj.bind, Obj.getitem, Obj.setitem, Obj.bind, Obj.read,
    Obj.lift, Obj.write.
  rewrite ?(lookup_total_correct _ _ _ HC).
  destruct (Py.getitem c i) as [c0|e]; simpl;
    [|exists c; by repeat split; try apply updates_refl].
  destruct (mod_ (i + shift) n) as [j|e]; simpl;
    [|exists c; by repeat split; try apply updates_refl].
  rewrite ?(lookup_total_correct _ _ _ HK).
  destruct (Py.getitem k j) as [k0|e]; simpl;
    [|exists c; by repeat split; try apply updates_refl].
  rewrite ?(lookup_total_correct _ _ _ HC).
  destruct (Py.setitem c i (Z.lxor c0 k0)) as [c'|e]; simpl;
    [|exists c; by repeat split; try apply updates_refl].
  exists c'. rewrite lookup_insert_eq.
  split; [done|]. split; [apply updates_insert | done].
Qed.

Lemma scatter_spec (T C : Obj.loc) (n mult r : Z) (t c : list Z) (h : Obj.store) :
  T ≠ C → h !! T = Some t → h !! C = Some c →
  step_spec C (Obj.scatter n mult r T C) (scatter n mult r t c) h.
Proof.
  intros HTC HT HC. unfold Obj.scatter, scatter.
  apply (for_each_step_spec C (λ h, h !! T = Some t)); [|clear c h HT HC|done..].
  { intros h1 h2 H1 Hup. rewrite (Hup T); [done|done|]. by rewrite H1. }
  intros i h c HC HT.
  unfold step_spec, Obj.bind, Obj.getitem, Obj.setitem, Obj.bind, Obj.read,
    Obj.lift, Obj.write.
  destruct (mod_ (i * mult + r * 7) n) as [p|e]; simpl;
    [|exists c; by repeat split; try apply updates_refl].
  rewrite ?(lookup_total_correct _ _ _ HT).
  destruct (Py.getitem t i) as [v|e]; simpl;
    [|exists c; by repeat split; try apply updates_refl].
  rewrite ?(lookup_total_correct _ _ _ HC).
  destruct (Py.setitem c p v) as [c'|e]; simpl;
    [|exists c; by repeat split; try apply updates_refl].
  exists c'. rewrite lookup_insert_eq.
  split; [done|]. split; [apply updates_insert | done].
Qed.

Lemma gather_spec (T C : Obj.loc) (n mult r : Z) (t c : list Z) (h : Obj.store) :
  T ≠ C → h !! T = Some t → h !! C = Some c →
  step_spec C (Obj.gather n mult r T C) (gather n mult r t c) h.
Proof.
  intros HTC HT HC. unfold Obj.gather, gather.
  apply (for_each_step_spec C (λ h, h !! T = Some t)); [|clear c h HT HC|done..].
  { intros h1 h2 H1 Hup. rewrite (Hup T); [done|done|]. by rewrite H1. }
  intros i h c HC HT.
  unfold step_spec, Obj.bind, Obj.getitem, Obj.setitem, Obj.bind, Obj.read,
    Obj.lift, Obj.write.
  destruct (mod_ (i * mult + r * 7) n) as [p|e]; simpl;
    [|exists c; by repeat split; try apply updates_refl].
  rewrite ?(lookup_total_correct _ _ _ HT).
  destruct (Py.getitem t p) as [v|e]; simpl;
    [|exists c; by repeat split; try apply updates_refl].
  rewrite ?(lookup_total_correct _ _ _ HC).
  destruct (Py.setitem c i v) as [c'|e]; simpl;
    [|exists c; by repeat split; try apply updates_refl].
  exists c'. rewrite lookup_insert_eq.
  split; [done|]. split; [apply updates_insert | done].
Qed.
Lemma step_spec_bind (C : Obj.loc) (m : Obj.prog unit)
    (k : unit → Obj.prog unit) (rv : result (list Z))
    (kv : list Z → result (list Z)) (h : Obj.store) :
  step_spec C m rv h →
  (∀ c', rv = Ret c' → (m h).2 !! C = Some c' → updates C h (m h).2 →
     step_spec C (k tt) (kv c') (m h).2) →
  step_spec C (Obj.bind m k) (rv ≫= kv) h.
Proof.
  intros (c1 & Hc1 & Hup1 & Hres) Hk. unfold step_spec, Obj.bind.
  destruct (m h) as [res1 h1]. cbn [fst snd] in *.
  destruct rv as [c2|e]; cbn [mbind result_bind Py.bind].
  - destruct Hres as [-> ->].
    destruct (Hk c2 eq_refl Hc1 Hup1) as (c3 & Hc3 & Hup3 & Hres3).
    exists c3. split; [exact Hc3|]. split; [|exact Hres3].
    exact (updates_trans _ _ _ _ Hup1 Hup3).
  - rewrite Hres. exists c1. by repeat split.
Qed.

Lemma step_spec_lift {A} (C : Obj.loc) (r : result A)
    (k : A → Obj.prog unit) (kv : A → result (list Z))
    (h : Obj.store) (c : list Z) :
  h !! C = Some c →
  (∀ a, r = Ret a → step_spec C (k a) (kv a) h) →
  step_spec C (Obj.bind (Obj.lift r) k) (r ≫= kv) h.
Proof.
  intros Hc Hk. destruct r as [a|e]; [by apply Hk|].
  exists c. cbn. split; [done|]. split; [apply updates_refl | done].
Qed.

Lemma step_spec_copy (C : Obj.loc) (k : Obj.loc → Obj.prog unit)
    (rv : result (list Z)) (h : Obj.store) (c : list Z) :
  h !! C = Some c →
  (∀ T, h !! T = None → step_spec C (k T) rv (<[T := c]> h)) →
  step_spec C (Obj.bind (Obj.copy C) k) rv h.
Proof.
  intros Hc Hk.
  pose proof (is_fresh (dom h)) as Hfresh.
  apply not_elem_of_dom in Hfresh.
  destruct (Hk _ Hfresh) as (c3 & Hc3 & Hup3 & Hres3).
  unfold step_spec, Obj.bind, Obj.copy, Obj.bind, Obj.read, Obj.alloc.
  cbn beta iota zeta. rewrite (lookup_total_correct _ _ _ Hc).
  exists c3. split; [exact Hc3|]. split; [|exact Hres3].
  intros l Hl Hsome. rewrite (Hup3 l Hl).
  - apply lookup_insert_ne. intros <-. rewrite Hfresh in Hsome.
    by destruct Hsome.
  - rewrite lookup_insert_ne; [done|]. intros <-. rewrite Hfresh in Hsome.
    by destruct Hsome.
Qed.

Lemma ENC_round_spec (K C : Obj.loc) (n r : Z) (k c : list Z)
    (h : Obj.store) :
  K ≠ C → h !! K = Some k → h !! C = Some c →
  step_spec C (Obj.ENC_round K n C r) (ENC_round k n c r) h.
Proof.
  intros HKC HK HC. unfold Obj.ENC_round, ENC_round.
  apply (step_spec_lift C _ _ _ h c HC). intros shift _.
  apply step_spec_bind; [by apply xor_key_spec|].
  intros c1 _ Hc1 Hup1.
  apply (step_spec_copy C _ _ _ c1 Hc1). intros T HT.
  assert (T ≠ C) as HTC by (intros ->; congruence).
  apply (step_spec_lift C _ _ _ _ c1); [by rewrite lookup_insert_ne|].
  intros mult _.
  apply scatter_spec; [done | apply lookup_insert_eq |].
  by rewrite lookup_insert_ne.
Qed.

Lemma DEC_round_spec (K C : Obj.loc) (n r : Z) (k c : list Z)
    (h : Obj.store) :
  K ≠ C → h !! K = Some k → h !! C = Some c →
  step_spec C (Obj.DEC_round K n C r) (DEC_round k n c r) h.
Proof.
  intros HKC HK HC. unfold Obj.DEC_round, DEC_round. cbn zeta.
  apply (step_spec_copy C _ _ _ c HC). intros T HT.
  assert (T ≠ C) as HTC by (intros ->; congruence).
  assert (T ≠ K) as HTK by (intros ->; congruence).
  assert (<[T:=c]> h !! C = Some c) as HC' by (by rewrite lookup_insert_ne).
  apply (step_spec_lift C _ _ _ _ c HC'). intros mult _.
  apply step_spec_bind; [apply gather_spec; [done | apply lookup_insert_eq | done]|].
  intros c1 _ Hc1 Hup1.
  apply (step_spec_lift C _ _ _ _ c1 Hc1). intros shift _.
  apply xor_key_spec; [done| |done].
  rewrite (Hup1 K); [by rewrite lookup_insert_ne | done |].
  rewrite lookup_insert_ne by done. by rewrite HK.
Qed.

Lemma rounds_call_spec
    (round_o : Obj.loc → Z → Obj.loc → Z → Obj.prog unit)
    (round_v : list Z → Z → list Z → Z → result (list Z)) idx
    (K X : Obj.loc) (k x : list Z) (h : Obj.store) :
  (∀ K C n r k c h, K ≠ C → h !! K = Some k → h !! C = Some c →
     step_spec C (round_o K n C r) (round_v k n c r) h) →
  h !! K = Some k → h !! X = Some x →
  call_spec
    (Obj.bind (Obj.len K) (λ nK, Obj.bind (Obj.len X) (λ nX,
       if decide (nK ≠ nX) then Obj.raise ValueError
       else Obj.bind (Obj.len X) (λ n, Obj.bind (Obj.copy X) (λ C,
         Obj.bind (Obj.for_each (round_o K n C) idx) (λ _, Obj.ret C))))))
    (if decide (len k ≠ len x) then Raise ValueError
     else Py.for_each (round_v k (len x)) idx x)
    h.
Proof.
  intros Hround HK HX. unfold call_spec.
  unfold Obj.bind at 1 2, Obj.len, Obj.bind, Obj.read, Obj.ret.
  cbn beta iota zeta.
  rewrite (lookup_total_correct _ _ _ HK), !(lookup_total_correct _ _ _ HX).
  case_decide as Hlen; [by split|].
  unfold Obj.copy, Obj.bind, Obj.read, Obj.alloc. cbn beta iota zeta.
  rewrite (lookup_total_correct _ _ _ HX).
  pose proof (is_fresh (dom h)) as Hfresh.
  apply not_elem_of_dom in Hfresh.
  set (C := fresh (dom h)) in *.
  assert (K ≠ C) as HKC by (intros ->; congruence).
  destruct (for_each_step_spec C (λ h, h !! K = Some k)
              (round_o K (len x) C) (round_v k (len x))) with
    (idx := idx) (h := <[C := x]> h) (c := x)
    as (c' & Hc' & Hup & Hres).
  { intros h1 h2 H1 Hup. rewrite (Hup K); [done|done|]. by rewrite H1. }
  { intros r h1 c1 Hc1 HK1. by apply Hround. }
  { apply lookup_insert_eq. }
  { by rewrite lookup_insert_ne. }
  destruct (Obj.for_each _ idx _) as [res h']. cbn [fst snd] in *.
  assert (∀ l, is_Some (h !! l) → h' !! l = h !! l) as Hframe.
  { intros l Hl. assert (l ≠ C) as HlC by (intros ->; rewrite Hfresh in Hl;
      by destruct Hl).
    rewrite (Hup l HlC); rewrite lookup_insert_ne; done. }
  destruct (Py.for_each _ idx x) as [c2|e].
  - destruct Hres as [-> ->]. split; [done|]. by exists C.
  - rewrite Hres. by split.
Qed.

Lemma ENC_call_spec (K M : Obj.loc) (k m : list Z) (h : Obj.store) :
  h !! K = Some k → h !! M = Some m →
  call_spec (Obj.ENC K M) (ENC k m) h.
Proof. apply (rounds_call_spec Obj.ENC_round ENC_round), @ENC_round_spec. Qed.

Lemma DEC_call_spec (K C : Obj.loc) (k c : list Z) (h : Obj.store) :
  h !! K = Some k → h !! C = Some c →
  call_spec (Obj.DEC K C) (DEC k c) h.
Proof. apply (rounds_call_spec Obj.DEC_round DEC_round), @DEC_round_spec. Qed.
End frame.

(** ** Where the position mapping collides *)

(** The position mapping is one-to-one exactly on the lengths that are
    no multiple of 15. *)
Lemma new_pos_inj_iff (n r : Z) :
  0 < n →
  (∀ i j, 0 ≤ i < n → 0 ≤ j < n → new_pos n r i = new_pos n r j → i = j)
  ↔ n `mod` 15 ≠ 0.
Proof.
  intros Hn. split.
  - intros Hinj H15.
    apply Z.mod_divide in H15 as [q Hq]; [|lia].
    assert (mult n = 5) as Hm.
    { unfold mult. rewrite decide_False; [done|].
      intros H3. apply H3. apply Z.mod_divide; [lia|]. exists (5 * q). lia. }
    assert (0 = 3 * q); [|lia].
    apply Hinj; [lia..|]. unfold new_pos. rewrite Hm.
    replace (3 * q * 5 + r * 7) with (0 * 5 + r * 7 + 1 * n) by lia.
    by rewrite Z_mod_plus_full.
  - intros H15 i j Hi Hj. by apply new_pos_inj.
Qed.

(** A key of 60 bits, the length GEN gives a seed of 15 characters: the
    first bit of the message never reaches the ciphertext. *)
Lemma ENC_60_zeros (x : Z) :
  ENC (replicate 60 0) (x :: replicate 59 0) = Ret (replicate 60 0).
Proof. vm_compute. reflexivity. Qed.

Lemma ENC_60_forgets (K M : list Z) (x y : Z) :
  length K = 60%nat → length M = 59%nat → ENC K (x :: M) = ENC K (y :: M).
Proof.
  intros HK HM.
  destruct (ENC_xor3 K (replicate 60 0) (replicate 60 0)
              (y :: M) (x :: replicate 59 0) (y :: replicate 59 0))
    as (C1 & C2 & C3 & H1 & H2 & H3 & H);
    try (unfold len; cbn [length]; rewrite ?length_replicate; lia).
  rewrite ENC_60_zeros in H2, H3. injection H2 as <-. injection H3 as <-.
  assert (length C1 = 60%nat) as HC1.
  { rewrite (ENC_DEC_same_length K (y :: M) C1); [simpl; lia | by left]. }
  assert (xor3 K (replicate 60 0) (replicate 60 0) = K) as HKx.
  { unfold xor3. by rewrite !(xor_list_zeros_r K) by (by rewrite HK). }
  assert (xor3 (y :: M) (x :: replicate 59 0) (y :: replicate 59 0) = x :: M)
    as HMx.
  { unfold xor3, xor_list. cbn [zip_with]. f_equal.
    - rewrite (Z.lxor_comm y x), Z.lxor_assoc, Z.lxor_nilpotent. apply Z.lxor_0_r.
    - change (xor_list (xor_list M (replicate 59 0)) (replicate 59 0) = M).
      rewrite !(xor_list_zeros_r M) by (by rewrite HM). done. }
  rewrite HKx, HMx in H. rewrite H, H1. f_equal.
  change (xor3 C1 (replicate 60 0) (replicate 60 0) = C1).
  unfold xor3. by rewrite !(xor_list_zeros_r C1) by (by rewrite HC1).
Qed.

(** ** The digest of SHA-256 has 32 bytes *)

Lemma length_sha256 (msg : list Z) : length (SHA256.sha256 msg) = 32%nat.
Proof.
  unfold SHA256.sha256. cbn zeta.
  destruct (SHA256.blocks _ _ _) as [[[[[[[a b] c] d] e] f] g] h].
  reflexivity.
Qed.

Lemma expand_key_blocks (sha256 : list Z → list Z) (seed : list Z) (c d : nat) :
  (∀ msg, length (sha256 msg) = 32%nat) →
  (4 * length seed ≤ 256 * c)%nat →
  (4 * length seed ≤ 256 * d)%nat →
  expand_key sha256 c seed = expand_key sha256 d seed.
Proof.
  intros Hsz Hc Hd. unfold expand_key.
  destruct (decide (c ≤ d)%nat) as [Hle|Hgt].
  - replace d with (c + (d - c))%nat by lia.
    by rewrite take_key_stream_more.
  - replace c with (d + (c - d))%nat by lia.
    by rewrite take_key_stream_more.
Qed.

Lemma Forall_zero_replicate (l : list Z) :
  Forall (λ x, x = 0) l → l = replicate (length l) 0.
Proof. induction 1 as [|x l -> _ IH]; simpl; [done | by rewrite <- IH]. Qed.

Lemma ENC_zeros_zeros (k : nat) (C : list Z) :
  ENC (replicate k 0) (replicate k 0) = Ret C → C = replicate k 0.
Proof.
  intros H.
  assert (length C = k) as HC.
  { rewrite (ENC_DEC_same_length _ _ C (or_introl H)). apply length_replicate. }
  apply (ENC_inv (Forall (λ x, x = 0)) (λ x, x = 0)) in H.
  - apply Forall_zero_replicate in H. by rewrite HC in H.
  - intros l x Hl Hx. by eapply Forall_forall in Hl.
  - intros l j x Hl ->. by apply Forall_insert.
  - by intros a b -> ->.
  - by apply Forall_replicate.
  - by apply Forall_replicate.
Qed.

(** ENC is the re-indexed message XORed with what the key alone gives. *)
Lemma ENC_reindex_xor (K M : list Z) :
  0 < len M → len K = len M →
  ∃ C C0, ENC K M = Ret C ∧ ENC K (replicate (length M) 0) = Ret C0 ∧
    C = xor_list (reindex (ENC_index (len M)) M) C0.
Proof.
  intros Hn HK. set (Z0 := replicate (length M) 0).
  assert (length Z0 = length M) as HZ0 by apply length_replicate.
  destruct (ENC_xor3 Z0 K Z0 M Z0 Z0)
    as (C1 & C2 & C3 & H1 & H2 & H3 & H); try (unfold len in *; lia).
  apply ENC_zeros_zeros in H3 as ->. fold Z0 in H.
  unfold Z0 in H1. rewrite ENC_zeros_reindex in H1 by done. injection H1 as <-.
  assert (length C2 = length M) as HC2.
  { by rewrite (ENC_DEC_same_length _ _ C2 (or_introl H2)). }
  assert (xor3 Z0 K Z0 = K) as HKx.
  { unfold xor3, Z0. rewrite xor_list_zeros_l by (unfold len in *; lia).
    apply xor_list_zeros_r. unfold len in *. lia. }
  assert (xor3 M Z0 Z0 = M) as HMx.
  { unfold xor3, Z0. by rewrite !(xor_list_zeros_r M). }
  rewrite HKx, HMx in H. eexists _, C2. split; [exact H|]. split; [done|].
  unfold xor3, Z0. rewrite xor_list_zeros_r; [done|].
  unfold xor_list. by rewrite length_zip_with, length_reindex, HC2, Nat.min_id.
Qed.

(** * The claims *)

(** C1 (round-trip law), evaluated where the code breaks it.  On the empty
    key and message ENC and DEC raise [ZeroDivisionError] at
    [(r * 11) % n], and on the length 15, where the multiplier 5 divides
    the length, the all-zero key sends the message [1, 0, ..., 0] to the
    all-zero ciphertext, which DEC sends to the all-zero message. *)
Theorem roundtrip_fails :
  ENC [] [] = Raise ZeroDivisionError ∧
  DEC [] [] = Raise ZeroDivisionError ∧
  ENC (replicate 15 0) (1 :: replicate 14 0) = Ret (replicate 15 0) ∧
  DEC (replicate 15 0) (replicate 15 0) = Ret (replicate 15 0) ∧
  replicate 15 0 ≠ 1 :: replicate 14 0.
Proof. repeat split; try (vm_compute; reflexivity). discriminate. Qed.

(** C2 (permutation bijectivity), evaluated where the code breaks it.
    For the length 60 of the key of a seed of 15 characters the multiplier
    is 5, and in every round the positions 0 and 12 are sent to the same
    position; the scatter of round 0, run on the buffer [0, 1, ..., 59],
    leaves 48 at position 0 and 0 nowhere. *)
Theorem new_pos_collides_60 (r : Z) :
  mult_of 60 = Ret 5 ∧ new_pos 60 r 0 = new_pos 60 r 12 ∧
  new_pos 60 0 <$> [0; 12; 24; 36; 48] = [0; 0; 0; 0; 0] ∧
  ∃ Y, scatter 60 5 0 (range 60) (range 60) = Ret Y ∧
       Y !! 0%nat = Some 48 ∧ 0 ∉ Y.
Proof.
  split; [reflexivity|]. split; [|split; [reflexivity|]].
  - unfold new_pos. change (mult 60) with 5.
    replace (12 * 5 + r * 7) with (0 * 5 + r * 7 + 1 * 60) by lia.
    by rewrite Z_mod_plus_full.
  - eexists. split; [vm_compute; reflexivity|]. split; [reflexivity|].
    apply (bool_decide_unpack _). vm_compute. exact I.
Qed.

(** C3 (degenerate zero-length case).  GEN on the empty seed returns the
    empty key, whatever the hash and without entering its loop; ENC and
    DEC on the empty key and the empty data raise [ZeroDivisionError]. *)
Theorem empty_seed_empty_data (sha256 : list Z → list Z) (fuel : nat) :
  GEN sha256 fuel (codepoints "") = Some (Ret []) ∧
  ENC [] [] = Raise ZeroDivisionError ∧
  DEC [] [] = Raise ZeroDivisionError.
Proof. repeat split; by destruct fuel. Qed.

(** C4 (LengthMismatch): ENC and DEC raise [ValueError], the length
    mismatch error, exactly when the key and the data differ in length;
    a raised exception carries no list, so nothing is cut or padded. *)
Theorem length_mismatch_iff (K X : list Z) :
  (ENC K X = Raise ValueError ↔ length K ≠ length X) ∧
  (DEC K X = Raise ValueError ↔ length K ≠ length X).
Proof.
  assert (∀ f, (f = ENC ∨ f = DEC) →
            f K X = Raise ValueError ↔ length K ≠ length X) as H.
  { intros f Hf. split.
    - intros Hraise Hlen.
      destruct (decide (0 < len X)) as [Hpos|Hzero].
      + destruct Hf as [-> | ->].
        * rewrite ENC_Ret in Hraise; [done | unfold len; lia | done].
        * rewrite DEC_Ret in Hraise; [done | unfold len; lia | done].
      + destruct X; [|unfold len in Hzero; simpl in Hzero; lia].
        destruct K; [|done]. by destruct Hf as [-> | ->].
    - intros Hlen. destruct Hf as [-> | ->]; unfold ENC, DEC;
        rewrite decide_True; unfold len; (done || lia). }
  split; apply H; auto.
Qed.

(** C5 (KeyExpander correctness), not for every seed: on the seed of
    one lone surrogate, U+D800, of length 1, GEN returns no key of 4 bits
    but raises [UnicodeEncodeError], from [seed.encode()]. *)
Lemma GEN_lone_surrogate :
  GEN SHA256.sha256 1 [0xD800] = Some (Raise UnicodeEncodeError) ∧
  ¬ (∃ key, GEN SHA256.sha256 1 [0xD800] = Some (Ret key)).
Proof.
  split; [vm_compute; reflexivity|].
  intros [key Hkey]. vm_compute in Hkey. discriminate.
Qed.

(** C5 (KeyExpander correctness), on the seeds UTF-8 can encode.  With a
    hash whose digests have 32 bytes and enough fuel for the loop, GEN on
    a seed that holds no surrogate returns the key expander of the
    specification: the bits, most significant first, of the hash of the
    seed and then of the seed followed by the counters 1, 2, ..., cut to
    [4 * length seed] bits; and the key has exactly that many bits.  On a
    seed that holds a surrogate GEN raises [UnicodeEncodeError]. *)
Theorem GEN_key_expander (sha256 : list Z → list Z) (fuel nblocks : nat)
    (seed : list Z) :
  (∀ msg, length (sha256 msg) = 32%nat) →
  (4 * length seed ≤ 256 * fuel)%nat →
  (4 * length seed ≤ 256 * nblocks)%nat →
  (encodable seed →
   GEN sha256 fuel seed = Some (Ret (expand_key sha256 nblocks seed)) ∧
   length (expand_key sha256 nblocks seed) = (4 * length seed)%nat) ∧
  (¬ encodable seed → GEN sha256 fuel seed = Some (Raise UnicodeEncodeError)).
Proof.
  intros Hsz Hfuel Hblocks. split; [|apply GEN_not_encodable].
  intros Hseed. split; [|by apply length_expand_key].
  rewrite GEN_expand_key by done. do 2 f_equal. by apply expand_key_blocks.
Qed.

(** C6 (length preservation): whenever ENC or DEC returns, its result is
    as long as the data, which is as long as the key. *)
Theorem ENC_DEC_length (K X Y : list Z) :
  ENC K X = Ret Y ∨ DEC K X = Ret Y →
  length Y = length X ∧ length K = length X.
Proof.
  intros H. split; [by apply (ENC_DEC_same_length K)|].
  destruct H as [H|H]; [apply ENC_Ret_len in H | apply DEC_Ret_len in H];
    unfold len in H; lia.
Qed.

(** C7 (concrete scenario).  The key of the seed "ab" has 8 bits; for
    [n = 8] the multiplier is 3; the positions of round 0 are
    [0,3,6,1,4,7,2,5]; and the gather of DEC after the scatter of ENC gives
    back every buffer of length 8. *)
Theorem scenario_ab (sha256 : list Z → list Z) (fuel : nat) (X : list Z) :
  (∀ msg, length (sha256 msg) = 32%nat) → (1 ≤ fuel)%nat → length X = 8%nat →
  (∃ key, GEN sha256 fuel (codepoints "ab") = Some (Ret key) ∧
          length key = 8%nat) ∧
  mult_of 8 = Ret 3 ∧
  new_pos 8 0 <$> range 8 = [0; 3; 6; 1; 4; 7; 2; 5] ∧
  (∃ Y, scatter 8 3 0 X X = Ret Y ∧ gather 8 3 0 Y Y = Ret X).
Proof.
  intros Hsz Hfuel HX. split; [|split; [reflexivity|split; [reflexivity|]]].
  - eexists. split;
      [apply GEN_expand_key; [done | apply encodable_codepoints | simpl; lia]|].
    rewrite length_expand_key; [done | done | simpl; lia].
  - assert (len X = 8) as HX8 by (unfold len; lia).
    change 3 with (mult 8). eexists. split; [by apply scatter_pure|].
    rewrite gather_pure; [| done | |].
    + f_equal. by apply gather_scatter.
    + unfold len. rewrite length_foldl_scatter_step. done.
    + unfold len. rewrite length_foldl_scatter_step. done.
Qed.

(** C8 (no mutation of inputs).  A call of ENC or DEC on the objects [K]
    and [X], which may be one object, leaves every object that was there
    unchanged, the key and the data among them; its result is a new object
    holding what the function on values returns from the contents of [K]
    and [X] alone. *)
Theorem ENC_DEC_no_mutation (h : Obj.store) (K X : Obj.loc) (k x : list Z) :
  h !! K = Some k → h !! X = Some x →
  ((Obj.ENC K X h).2 !! K = Some k ∧ (Obj.ENC K X h).2 !! X = Some x ∧
   call_spec (Obj.ENC K X) (ENC k x) h) ∧
  ((Obj.DEC K X h).2 !! K = Some k ∧ (Obj.DEC K X h).2 !! X = Some x ∧
   call_spec (Obj.DEC K X) (DEC k x) h).
Proof.
  intros HK HX.
  pose proof (ENC_call_spec K X k x h HK HX) as HE.
  pose proof (DEC_call_spec K X k x h HK HX) as HD.
  split; (split; [|split]); try done.
  - rewrite (proj1 HE); [done | by rewrite HK].
  - rewrite (proj1 HE); [done | by rewrite HX].
  - rewrite (proj1 HD); [done | by rewrite HK].
  - rewrite (proj1 HD); [done | by rewrite HX].
Qed.

(** C9 (XOR-linearity in the message).  For a key and two messages of one
    positive length, the ciphertext of the XOR of the messages is the XOR
    of their ciphertexts and of the ciphertext of the zero message; and a
    ciphertext is the message re-indexed by positions that depend on the
    length alone, XORed with the ciphertext of the zero message. *)
Theorem ENC_xor_affine (K M1 M2 : list Z) :
  (0 < length K)%nat → length M1 = length K → length M2 = length K →
  ∃ C1 C2 C0,
    ENC K M1 = Ret C1 ∧ ENC K M2 = Ret C2 ∧
    ENC K (replicate (length K) 0) = Ret C0 ∧
    ENC K (xor_list M1 M2) = Ret (xor_list (xor_list C1 C2) C0) ∧
    C1 = xor_list (reindex (ENC_index (len K)) M1) C0 ∧
    C2 = xor_list (reindex (ENC_index (len K)) M2) C0.
Proof.
  intros Hn HM1 HM2. set (Z0 := replicate (length K) 0).
  assert (length Z0 = length K) as HZ0 by apply length_replicate.
  destruct (ENC_xor3 K K K M1 M2 Z0)
    as (C1 & C2 & C0 & H1 & H2 & H0 & H); try (unfold len; lia).
  exists C1, C2, C0. rewrite xor3_same in H.
  assert (xor3 M1 M2 Z0 = xor_list M1 M2) as HMx.
  { unfold xor3, Z0. apply xor_list_zeros_r.
    unfold xor_list. rewrite length_zip_with. lia. }
  rewrite HMx in H. repeat split; try done.
  - destruct (ENC_reindex_xor K M1) as (C & C' & HC & HC' & HCeq);
      try (unfold len; lia).
    unfold len in HCeq. rewrite HM1 in HC', HCeq. fold Z0 in HC'.
    assert (C = C1) as -> by congruence.
    assert (C' = C0) as -> by congruence. exact HCeq.
  - destruct (ENC_reindex_xor K M2) as (C & C' & HC & HC' & HCeq);
      try (unfold len; lia).
    unfold len in HCeq. rewrite HM2 in HC', HCeq. fold Z0 in HC'.
    assert (C = C2) as -> by congruence.
    assert (C' = C0) as -> by congruence. exact HCeq.
Qed.

(** C10 (bit values).  With a hash whose digests have 32 bytes and
    enough fuel for the loop, GEN on a seed that holds no surrogate
    returns a key whose every element is 0 or 1, and on the other seeds
    it raises [UnicodeEncodeError] and returns no key; and on a key and
    data of bits every element of what ENC or DEC returns is 0 or 1. *)
Theorem bits_invariant :
  (∀ (sha256 : list Z → list Z) (fuel : nat) (seed : list Z),
     (∀ msg, length (sha256 msg) = 32%nat) →
     (4 * length seed ≤ 256 * fuel)%nat →
     (encodable seed →
      ∃ key, GEN sha256 fuel seed = Some (Ret key) ∧ Forall is_bit key) ∧
     (¬ encodable seed →
      GEN sha256 fuel seed = Some (Raise UnicodeEncodeError))) ∧
  (∀ K X Y : list Z,
     Forall is_bit K → Forall is_bit X →
     ENC K X = Ret Y ∨ DEC K X = Ret Y → Forall is_bit Y).
Proof.
  split; [|apply ENC_DEC_bits].
  intros sha256 fuel seed Hsz Hfuel. split; [|by apply GEN_not_encodable].
  intros Hseed. eexists. split; [by apply GEN_expand_key|].
  eapply GEN_bits. by apply GEN_expand_key.
Qed.

(** * The theorems at concrete inputs *)

(** A key of one bit and no data. *)
Lemma length_mismatch_iff_witness :
  length [1] ≠ length (@nil Z) ∧ ENC [1] [] = Raise ValueError.
Proof.
  split; [discriminate|].
  apply (proj2 (proj1 (length_mismatch_iff [1] []))). discriminate.
Defined.

(** The seed "ab" under SHA-256, one block. *)
Lemma GEN_key_expander_witness :
  GEN SHA256.sha256 1 (codepoints "ab")
  = Some (Ret (expand_key SHA256.sha256 1 (codepoints "ab"))) ∧
  length (expand_key SHA256.sha256 1 (codepoints "ab")) = 8%nat.
Proof.
  apply (GEN_key_expander SHA256.sha256 1 1 (codepoints "ab"));
    [apply length_sha256 | simpl; lia | simpl; lia | by apply (bool_decide_unpack _)].
Defined.

Lemma ENC_DEC_length_witness :
  ENC [1; 0] [1; 1] = Ret [0; 0] ∧
  length [0; 0] = length [1; 1] ∧ length [1; 0] = length [1; 1].
Proof.
  split; [vm_compute; reflexivity|].
  apply (ENC_DEC_length [1; 0] [1; 1] [0; 0]). left. vm_compute. reflexivity.
Defined.

Lemma scenario_ab_witness :
  (∃ key, GEN SHA256.sha256 1 (codepoints "ab") = Some (Ret key) ∧
          length key = 8%nat) ∧
  mult_of 8 = Ret 3 ∧
  new_pos 8 0 <$> range 8 = [0; 3; 6; 1; 4; 7; 2; 5] ∧
  (∃ Y, scatter 8 3 0 [0; 1; 2; 3; 4; 5; 6; 7] [0; 1; 2; 3; 4; 5; 6; 7] = Ret Y ∧
        gather 8 3 0 Y Y = Ret [0; 1; 2; 3; 4; 5; 6; 7]).
Proof.
  apply (scenario_ab SHA256.sha256 1 [0; 1; 2; 3; 4; 5; 6; 7]);
    [apply length_sha256 | lia | reflexivity].
Defined.

(** A store of two objects, the key at 0 and the data at 1. *)
Lemma ENC_DEC_no_mutation_witness :
  let h : Obj.store := <[0%nat := [1; 0]]> (<[1%nat := [1; 1]]> ∅) in
  ((Obj.ENC 0%nat 1%nat h).2 !! 0%nat = Some [1; 0] ∧
   (Obj.ENC 0%nat 1%nat h).2 !! 1%nat = Some [1; 1] ∧
   call_spec (Obj.ENC 0%nat 1%nat) (ENC [1; 0] [1; 1]) h) ∧
  ((Obj.DEC 0%nat 1%nat h).2 !! 0%nat = Some [1; 0] ∧
   (Obj.DEC 0%nat 1%nat h).2 !! 1%nat = Some [1; 1] ∧
   call_spec (Obj.DEC 0%nat 1%nat) (DEC [1; 0] [1; 1]) h).
Proof.
  intros h.
  apply (ENC_DEC_no_mutation h 0%nat 1%nat [1; 0] [1; 1]);
    vm_compute; reflexivity.
Defined.

Lemma ENC_xor_affine_witness :
  ∃ C1 C2 C0,
    ENC [1; 0] [1; 1] = Ret C1 ∧ ENC [1; 0] [0; 1] = Ret C2 ∧
    ENC [1; 0] (replicate (length [1; 0]) 0) = Ret C0 ∧
    ENC [1; 0] (xor_list [1; 1] [0; 1]) = Ret (xor_list (xor_list C1 C2) C0) ∧
    C1 = xor_list (reindex (ENC_index (len [1; 0])) [1; 1]) C0 ∧
    C2 = xor_list (reindex (ENC_index (len [1; 0])) [0; 1]) C0.
Proof.
  apply (ENC_xor_affine [1; 0] [1; 1] [0; 1]); [simpl; lia | reflexivity..].
Defined.

(** The seed "ab" under SHA-256, and ENC on a key and a message of two
    bits. *)
Lemma bits_invariant_witness :
  (∃ key, GEN SHA256.sha256 1 (codepoints "ab") = Some (Ret key) ∧
          Forall is_bit key) ∧
  ENC [1; 0] [1; 1] = Ret [0; 0] ∧ Forall is_bit [0; 0].
Proof.
  split; [|split; [vm_compute; reflexivity|]].
  - apply (proj1 bits_invariant SHA256.sha256 1%nat (codepoints "ab"));
      [apply length_sha256 | simpl; lia | by apply (bool_decide_unpack _)].
  - apply (proj2 bits_invariant [1; 0] [1; 1] [0; 0]).
    + repeat constructor; unfold is_bit; lia.
    + repeat constructor; unfold is_bit; lia.
    + left. vm_compute. reflexivity.
Defined.

(** * Further properties of the cipher *)

(** ** The position mapping is onto *)

Lemma new_pos_surj (n r j : Z) :
  0 < n → n `mod` 15 ≠ 0 → 0 ≤ j < n →
  ∃ i, 0 ≤ i < n ∧ new_pos n r i = j.
Proof.
  intros Hn H15 Hj.
  destruct (Z.gcd_bezout (mult n) n 1 (mult_coprime n H15)) as (u & v & Huv).
  exists (((j - r * 7) * u) `mod` n). split; [apply Z.mod_pos_bound; lia|].
  unfold new_pos.
  rewrite <- Z.add_mod_idemp_l, Z.mul_mod_idemp_l, Z.add_mod_idemp_l by lia.
  replace ((j - r * 7) * u * mult n + r * 7)
    with (j + (- (j - r * 7) * v) * n).
  2: { assert ((j - r * 7) * (u * mult n + v * n) = j - r * 7) as Ha
         by (rewrite Huv; lia).
       revert Ha. generalize (mult n) as m. intros m Ha. lia. }
  rewrite Z_mod_plus_full. apply Z.mod_small. lia.
Qed.

(** ** A round of ENC undoes a round of DEC *)

Section round_inverse_r.
Variables (K : list Z) (n : Z).
Hypothesis Hn : 0 < n.
Hypothesis H15 : n `mod` 15 ≠ 0.

Lemma scatter_gather (r : Z) (C : list Z) :
  len C = n →
  let Y := imap (gather_at n r C) C in
  foldl (scatter_step n r Y) Y (range n) = C.
Proof using Hn H15.
  intros HC Y. unfold len in HC.
  assert (length Y = length C) as HY by apply length_imap.
  apply list_eq. intros j.
  destruct (decide (j < length C)%nat) as [Hj|Hj].
  - destruct (new_pos_surj n r (Z.of_nat j) Hn H15) as (i & Hi & Hij); [lia|].
    pose proof (scatter_prefix_lookup n Hn H15 r Y Y (Z.to_nat n) (Z.to_nat i))
      as Hs.
    rewrite !Z2Nat.id, Hij, Nat2Z.id in Hs by lia.
    rewrite (list_lookup_lookup_total_lt _ j)
      by (rewrite length_foldl_scatter_step; lia).
    rewrite Hs by (unfold len; lia).
    unfold Y. rewrite list_lookup_total_alt, list_lookup_imap.
    destruct (lookup_lt_is_Some_2 C (Z.to_nat i)) as [c Hc]; [lia|].
    rewrite Hc. simpl. unfold gather_at. rewrite Z2Nat.id, Hij, Nat2Z.id by lia.
    symmetry. f_equal. by apply list_lookup_lookup_total_lt.
  - rewrite !lookup_ge_None_2;
      rewrite ?length_foldl_scatter_step; [done|lia..].
Qed.

Lemma ENC_round_DEC_round (C : list Z) (r : Z) :
  len C = n →
  ENC_round_pure K n (DEC_round_pure K n C r) r = C.
Proof using Hn H15.
  intros HC. unfold ENC_round_pure, DEC_round_pure. cbn zeta.
  rewrite xor_key_involutive. by apply scatter_gather.
Qed.

Lemma ENC_rounds_DEC_rounds idx (C : list Z) :
  len C = n →
  foldl (ENC_round_pure K n) (foldl (DEC_round_pure K n) C (reverse idx)) idx
  = C.
Proof using Hn H15.
  intros HC. induction idx as [|r idx IH]; [done|].
  rewrite reverse_cons, foldl_app. simpl.
  rewrite ENC_round_DEC_round; [done|].
  by rewrite len_foldl_DEC_round_pure.
Qed.
End round_inverse_r.

(** What DEC returns after ENC, and ENC after DEC. *)
Lemma DEC_after_ENC (K M C : list Z) :
  0 < len M → len M `mod` 15 ≠ 0 → ENC K M = Ret C → DEC K C = Ret M.
Proof.
  intros Hn H15 HE. pose proof (ENC_Ret_len _ _ _ HE) as HK.
  rewrite ENC_Ret in HE by done.
  assert (C = foldl (ENC_round_pure K (len M)) M (range rounds)) as ->
    by congruence.
  rewrite DEC_Ret by (by rewrite len_foldl_ENC_round_pure).
  rewrite len_foldl_ENC_round_pure.
  f_equal. by apply (DEC_rounds_ENC_rounds K (len M) Hn H15 (range rounds)).
Qed.

Lemma ENC_after_DEC (K C M : list Z) :
  0 < len C → len C `mod` 15 ≠ 0 → DEC K C = Ret M → ENC K M = Ret C.
Proof.
  intros Hn H15 HD. pose proof (DEC_Ret_len _ _ _ HD) as HK.
  rewrite DEC_Ret in HD by done.
  assert (M = foldl (DEC_round_pure K (len C)) C (range_down (rounds - 1)))
    as -> by congruence.
  rewrite ENC_Ret by (by rewrite len_foldl_DEC_round_pure).
  rewrite len_foldl_DEC_round_pure.
  f_equal. by apply (ENC_rounds_DEC_rounds K (len C) Hn H15 (range rounds)).
Qed.

(** ** The re-indexing of ENC is a permutation *)

Lemma bij_on_id (N : nat) : bij_on N id.
Proof. repeat split; eauto. Qed.

Lemma bij_on_compose (N : nat) (σ τ : nat → nat) :
  bij_on N σ → bij_on N τ → bij_on N (σ ∘ τ).
Proof.
  intros (Hb1 & Hs1 & Hi1) (Hb2 & Hs2 & Hi2). repeat split.
  - intros j Hj. apply Hb1, Hb2, Hj.
  - intros p Hp. destruct (Hs1 p Hp) as (j & Hj & <-).
    destruct (Hs2 j Hj) as (j' & Hj' & <-). by exists j'.
  - intros j j' Hj Hj' Heq. apply Hi2; [done..|]. apply Hi1; auto.
Qed.

Section index_permutation.
Variable n : Z.
Hypothesis Hn : 0 < n.
Hypothesis H15 : n `mod` 15 ≠ 0.

Lemma scatter_index_prefix (r : Z) (τ : nat → nat) (k i : nat) :
  (k ≤ Z.to_nat n)%nat → (i < k)%nat →
  foldl (scatter_index n r) τ (range (Z.of_nat k))
    (Z.to_nat (new_pos n r (Z.of_nat i))) = i.
Proof using Hn H15.
  induction k as [|k IH]; intros Hk Hi; [lia|].
  rewrite range_S, foldl_snoc. unfold scatter_index at 1.
  pose proof (new_pos_range n r (Z.of_nat k) Hn) as Hpk.
  pose proof (new_pos_range n r (Z.of_nat i) Hn) as Hpi.
  case_decide as Heq.
  - apply Z2Nat.inj in Heq; [|lia..]. apply new_pos_inj in Heq; lia.
  - apply IH; [lia|]. destruct (decide (i = k)) as [->|]; [done | lia].
Qed.

Lemma round_index_new_pos (r i : Z) :
  0 ≤ i < n → round_index n r (Z.to_nat (new_pos n r i)) = Z.to_nat i.
Proof using Hn H15.
  intros Hi. unfold round_index.
  pose proof (scatter_index_prefix r id (Z.to_nat n) (Z.to_nat i)) as H.
  rewrite !Z2Nat.id in H by lia. apply H; lia.
Qed.

Lemma round_index_bij (r : Z) : bij_on (Z.to_nat n) (round_index n r).
Proof using Hn H15.
  assert (∀ j, (j < Z.to_nat n)%nat →
            ∃ i, 0 ≤ i < n ∧ j = Z.to_nat (new_pos n r i)) as Hsurj.
  { intros j Hj.
    destruct (new_pos_surj n r (Z.of_nat j) Hn H15) as (i & Hi & Hij); [lia|].
    exists i. split; [done|]. rewrite Hij. lia. }
  repeat split.
  - by apply round_index_bound.
  - intros p Hp. exists (Z.to_nat (new_pos n r (Z.of_nat p))).
    pose proof (new_pos_range n r (Z.of_nat p) Hn).
    split; [lia|]. rewrite round_index_new_pos; lia.
  - intros j j' Hj Hj' Heq.
    destruct (Hsurj j Hj) as (i & Hi & ->).
    destruct (Hsurj j' Hj') as (i' & Hi' & ->).
    rewrite !round_index_new_pos in Heq by done.
    by replace i' with i by lia.
Qed.

Lemma ENC_index_bij : bij_on (Z.to_nat n) (ENC_index n).
Proof using Hn H15.
  unfold ENC_index. generalize (range rounds) as idx. intros idx.
  assert (bij_on (Z.to_nat n) id) as Hid by apply bij_on_id.
  revert Hid. generalize (@id nat) as σ. intros σ. revert σ.
  induction idx as [|r idx IH]; intros σ Hσ; [done|].
  simpl. apply IH. apply bij_on_compose; [done | apply round_index_bij].
Qed.
End index_permutation.

Lemma reindex_insert (σ : nat → nat) (M : list Z) (p q : nat) (v : Z) :
  bij_on (length M) σ → (q < length M)%nat → σ q = p →
  reindex σ (<[p := v]> M) = <[q := v]> (reindex σ M).
Proof.
  intros (Hb & _ & Hi) Hq Hp. apply list_eq. intros j.
  destruct (decide (j < length M)%nat) as [Hj|Hj].
  - rewrite lookup_reindex by (by rewrite length_insert).
    destruct (decide (j = q)) as [->|Hjq].
    + rewrite list_lookup_insert_eq by (by rewrite length_reindex).
      rewrite Hp, list_lookup_total_insert_eq; [done|]. rewrite <- Hp. auto.
    + rewrite list_lookup_insert_ne by done. rewrite lookup_reindex by done.
      rewrite list_lookup_total_insert_ne; [done|].
      intros Heq. apply Hjq. apply Hi; [done..|]. congruence.
  - rewrite !lookup_ge_None_2;
      rewrite ?length_insert, ?length_reindex, ?length_insert; [done|lia..].
Qed.

(** ** One message bit moves one ciphertext bit *)

Lemma lxor_1_ne (c : Z) : Z.lxor c 1 ≠ c.
Proof.
  intros H. assert (Z.lxor c (Z.lxor c 1) = 1) as H1
    by (by rewrite <- Z.lxor_assoc, Z.lxor_nilpotent).
  rewrite H, Z.lxor_nilpotent in H1. discriminate.
Qed.

Lemma xor_list_insert_l (A B : list Z) (q : nat) (v : Z) :
  (q < length B)%nat →
  xor_list (<[q := v]> A) B = <[q := Z.lxor v (B !!! q)]> (xor_list A B).
Proof.
  intros Hq. unfold xor_list. rewrite insert_zip_with. f_equal.
  symmetry. apply list_insert_id. by apply list_lookup_lookup_total_lt.
Qed.

(** Writing [v] at position [p] of the message changes the ciphertext at
    the one position [q] that the re-indexing reads [p] from. *)
Lemma ENC_insert (K M C : list Z) (p q : nat) (v : Z) :
  0 < len M → len M `mod` 15 ≠ 0 →
  (q < length M)%nat → ENC_index (len M) q = p →
  ENC K M = Ret C →
  ENC K (<[p := v]> M)
  = Ret (<[q := Z.lxor v (Z.lxor (M !!! p) (C !!! q))]> C).
Proof.
  intros Hn H15 Hq Hp HE. pose proof (ENC_Ret_len _ _ _ HE) as HK.
  pose proof (ENC_index_bij (len M) Hn H15) as Hbij.
  unfold len in Hbij at 1. rewrite Nat2Z.id in Hbij.
  destruct (ENC_reindex_xor K M Hn HK) as (C1 & C0 & H1 & H0 & ->).
  assert (C = xor_list (reindex (ENC_index (len M)) M) C0) as -> by congruence.
  assert (length C0 = length M) as HC0.
  { rewrite (ENC_DEC_same_length _ _ C0 (or_introl H0)).
    apply length_replicate. }
  assert (len (<[p := v]> M) = len M) as Hlen
    by (unfold len; by rewrite length_insert).
  destruct (ENC_reindex_xor K (<[p := v]> M)) as (C2 & C0' & H2 & H0' & ->);
    [by rewrite Hlen..|].
  rewrite Hlen in *. rewrite length_insert in H0'.
  assert (C0' = C0) as -> by congruence.
  rewrite H2. f_equal.
  rewrite (reindex_insert _ M p q v Hbij Hq Hp).
  rewrite xor_list_insert_l by lia. do 2 f_equal.
  unfold xor_list. rewrite (list_lookup_total_alt (zip_with _ _ _)).
  rewrite lookup_zip_with, lookup_reindex by done.
  destruct (lookup_lt_is_Some_2 C0 q) as [c0 Hc0]; [lia|].
  rewrite Hc0, (list_lookup_total_correct _ _ _ Hc0), Hp. simpl.
  by rewrite <- Z.lxor_assoc, Z.lxor_nilpotent, Z.lxor_0_l.
Qed.

Lemma foldl_add_acc (a : Z) (l : list Z) :
  foldl Z.add a l = a + foldl Z.add 0 l.
Proof.
  revert a. induction l as [|x l IH]; intros a; cbn [foldl]; [lia|].
  rewrite (IH (a + x)), (IH (0 + x)). lia.
Qed.

Lemma bits_changed_same (C : list Z) : bits_changed C C = 0.
Proof.
  unfold bits_changed. induction C as [|c C IH]; [done|].
  csimpl. by rewrite decide_False by auto.
Qed.

Lemma bits_changed_insert (C : list Z) (q : nat) (v : Z) :
  (q < length C)%nat → v ≠ C !!! q → bits_changed C (<[q := v]> C) = 1.
Proof.
  unfold bits_changed. revert q.
  induction C as [|c C IH]; intros q Hq Hv; [simpl in Hq; lia|].
  destruct q as [|q]; csimpl in *.
  - rewrite decide_True by auto. rewrite foldl_add_acc.
    pose proof (bits_changed_same C) as HC. unfold bits_changed in HC.
    rewrite HC. lia.
  - rewrite decide_False by auto. apply IH; [lia | done].
Qed.

Lemma lxor_flip (m c : Z) :
  Z.lxor (Z.lxor m 1) (Z.lxor m c) = Z.lxor c 1.
Proof.
  apply Z.bits_inj'. intros i _. rewrite !Z.lxor_spec.
  by destruct (Z.testbit m i), (Z.testbit c i), (Z.testbit 1 i).
Qed.

Lemma ENC_flip (K M C : list Z) (p : nat) :
  0 < len M → len M `mod` 15 ≠ 0 → (p < length M)%nat →
  ENC K M = Ret C →
  ∃ q, (q < length M)%nat ∧ ENC_index (len M) q = p ∧
    ENC K (<[p := Z.lxor (M !!! p) 1]> M) = Ret (<[q := Z.lxor (C !!! q) 1]> C).
Proof.
  intros Hn H15 Hp HE.
  pose proof (ENC_index_bij (len M) Hn H15) as Hbij.
  unfold len in Hbij at 1. rewrite Nat2Z.id in Hbij.
  destruct Hbij as (_ & Hsurj & _).
  destruct (Hsurj p Hp) as (q & Hq & Hqp).
  exists q. split; [done|]. split; [done|].
  rewrite (ENC_insert K M C p q _ Hn H15 Hq Hqp HE). by rewrite lxor_flip.
Qed.

Lemma foldl_snoc_const {A B} (x : A) (idx : list B) (l : list A) :
  foldl (λ l _, l ++ [x]) l idx = l ++ replicate (length idx) x.
Proof.
  revert l. induction idx as [|i idx IH]; intros l; simpl.
  - by rewrite app_nil_r.
  - by rewrite IH, <- app_assoc.
Qed.

(** X7.  On a positive length that is no multiple of 15, every
    measurement of [test_diffusion] is 1: whichever bit of the message is
    flipped, one bit of the ciphertext changes. *)
Theorem diffusion_results_ones (K M : list Z) :
  len K = len M → 0 < len M → len M `mod` 15 ≠ 0 →
  diffusion_results K M = Ret (replicate (length M) 1).
Proof.
  intros HK Hn H15. unfold diffusion_results. cbn zeta.
  rewrite (ENC_Ret K M HK Hn), bind_Ret_l.
  set (C := foldl _ M (range rounds)).
  assert (ENC K M = Ret C) as HE by (by apply ENC_Ret).
  assert (length C = length M) as HC
    by (by rewrite (ENC_DEC_same_length K M C (or_introl HE))).
  rewrite HK.
  match goal with
  | |- for_each ?body ?idx [] = _ =>
      assert (∀ (l : list Z) i, i ∈ idx → True →
                body l i = Ret (l ++ [1]) ∧ True) as Hbody
  end.
  { intros l i [Hi1 Hi2]%elem_of_range _. split; [|done].
    rewrite getitem_Ret, bind_Ret_l by lia.
    rewrite setitem_Ret, bind_Ret_l by lia.
    destruct (ENC_flip K M C (Z.to_nat i) Hn H15) as (q & Hq & _ & ->);
      [unfold len in *; lia | done |].
    rewrite bind_Ret_l. do 3 f_equal.
    apply bits_changed_insert; [lia | apply lxor_1_ne]. }
  rewrite (proj1 (for_each_foldl (λ _, True) _ _ _ Hbody [] I)).
  f_equal. rewrite foldl_snoc_const. unfold range. rewrite length_seqZ.
  unfold len. by rewrite Nat2Z.id.
Qed.

Example diffusion_results_sample :
  diffusion_results [1; 0; 1; 1; 0; 0; 1; 0] [0; 1; 1; 0; 1; 0; 0; 1]
  = Ret [1; 1; 1; 1; 1; 1; 1; 1].
Proof. vm_compute. reflexivity. Qed.

(** ** The exceptions of ENC and DEC *)

Lemma ENC_DEC_Raise (K X : list Z) (e : exn) :
  ENC K X = Raise e ∨ DEC K X = Raise e →
  (e = ValueError ∧ length K ≠ length X) ∨
  (e = ZeroDivisionError ∧ K = [] ∧ X = []).
Proof.
  intros H.
  destruct (decide (length K = length X)) as [Hlen|Hlen].
  - right. destruct (decide (0 < len X)) as [Hpos|Hzero].
    + exfalso. destruct H as [H|H].
      * rewrite ENC_Ret in H; [done | unfold len; lia | done].
      * rewrite DEC_Ret in H; [done | unfold len; lia | done].
    + destruct X; [|unfold len in Hzero; simpl in Hzero; lia].
      destruct K; [|done]. destruct H as [H|H]; vm_compute in H;
        by injection H as <-.
  - left. split; [|done].
    destruct H as [H|H]; unfold ENC, DEC in H;
      rewrite decide_True in H by (unfold len; lia); congruence.
Qed.

(** ** The key of a seed and the key of the seed followed by "1" *)

Lemma block_digest_append (sha256 : list Z → list Z) (seed : list Z) :
  block_digest sha256 seed 1 = block_digest sha256 (seed ++ codepoints "1") 0.
Proof. reflexivity. Qed.

Lemma length_append_1 (seed : list Z) :
  length (seed ++ codepoints "1") = S (length seed).
Proof. rewrite length_app. simpl. lia. Qed.

(** X5.  With a hash of 32-byte digests, the second 256 bits of the key
    of a seed of at least 128 characters that holds no surrogate are the
    first 256 bits of the key of that seed followed by the character
    "1". *)
Theorem GEN_second_block (sha256 : list Z → list Z) (fuel : nat)
    (seed : list Z) :
  (∀ msg, length (sha256 msg) = 32%nat) →
  encodable seed →
  (128 ≤ length seed)%nat →
  (4 * S (length seed) ≤ 256 * fuel)%nat →
  ∃ key key1,
    GEN sha256 fuel seed = Some (Ret key) ∧
    GEN sha256 fuel (seed ++ codepoints "1") = Some (Ret key1) ∧
    take 256 (drop 256 key) = take 256 key1.
Proof.
  intros Hsz Hseed Hlen Hfuel.
  assert (encodable (seed ++ codepoints "1")) as Hseed1
    by (apply encodable_app; [done | apply encodable_codepoints]).
  exists (expand_key sha256 fuel seed),
    (expand_key sha256 fuel (seed ++ codepoints "1")).
  split; [apply GEN_expand_key; [done | done | lia]|].
  split; [apply GEN_expand_key; [done | done | rewrite length_append_1; lia]|].
  unfold expand_key. rewrite length_append_1.
  assert (∃ d, fuel = 2 + d)%nat as [d ->] by (exists (fuel - 2)%nat; lia).
  rewrite take_drop_commute, !take_take.
  replace ((256 + 256) `min` (4 * length seed))%nat with (2 * 256)%nat
    by lia.
  replace (256 `min` (4 * S (length seed)))%nat with (1 * 256)%nat by lia.
  rewrite (take_key_stream_more sha256 Hsz seed (2 * 256) 2 d) by lia.
  replace (2 + d)%nat with (1 + S d)%nat by lia.
  rewrite (take_key_stream_more sha256 Hsz (seed ++ codepoints "1")
             (1 * 256) 1 (S d)) by lia.
  rewrite !take_ge by (rewrite length_key_stream; [lia | done]).
  rewrite !key_stream_S. change (key_stream sha256 _ 0) with (@nil Z).
  rewrite !app_nil_l, drop_app_length'
    by (by rewrite length_block_bits).
  by rewrite block_digest_append.
Qed.

(** * The evaluation functions *)

(** ** Seeds and keys of the evaluation functions *)

Example zero_pad_sample :
  zero_pad 4 7 = "0007" ∧ zero_pad 4 (-5) = "-005" ∧
  zero_pad 7 1999 = "0001999" ∧ zero_pad 4 12345 = "12345".
Proof. vm_compute. auto. Qed.

Lemma basic_seed_length (i : Z) :
  i ∈ range 100 → String.length ("test" +:+ zero_pad 4 i) = 8%nat.
Proof.
  revert i. apply Forall_forall. apply (bool_decide_unpack _).
  vm_compute. exact I.
Qed.

Lemma equivalent_seed_length (i : Z) :
  i ∈ range 2000 → String.length ("s" +:+ zero_pad 7 i) = 8%nat.
Proof.
  revert i. apply Forall_forall. apply (bool_decide_unpack _).
  vm_compute. exact I.
Qed.

Lemma GEN_seed_8 (sha256 : list Z → list Z) (fuel : nat) (seed : string) :
  (∀ msg, length (sha256 msg) = 32%nat) → (1 ≤ fuel)%nat →
  String.length seed = 8%nat →
  GEN sha256 fuel (codepoints seed)
  = Some (Ret (expand_key sha256 fuel (codepoints seed))) ∧
  len (expand_key sha256 fuel (codepoints seed)) = 32.
Proof.
  intros Hsz Hfuel Hlen. rewrite <- length_codepoints in Hlen. split.
  - apply GEN_expand_key; [done | apply encodable_codepoints | lia].
  - unfold len. rewrite length_expand_key; [lia | done | lia].
Qed.

Lemma for_each_run_foldl {S : Type} (P : S → Prop) (body : S → Z → run S)
    (f : S → Z → S) idx :
  (∀ s i, i ∈ idx → P s → body s i = Some (Ret (f s i)) ∧ P (f s i)) →
  ∀ s, P s →
    for_each_run body idx s = Some (Ret (foldl f s idx)) ∧ P (foldl f s idx).
Proof.
  induction idx as [|i idx IH]; intros Hbody s Hs; simpl; [done|].
  destruct (Hbody s i) as [-> HP]; [left | done |].
  apply IH; [|done]. intros s0 i0 Hi0. apply Hbody. by right.
Qed.

Lemma len_randints (k : Z) (g : rng) : 0 ≤ k → len (randints k g).1 = k.
Proof.
  intros Hk. unfold randints, len. simpl.
  rewrite length_fmap, length_seq. lia.
Qed.

Lemma randints_bits (k : Z) (g : rng) : Forall is_bit (randints k g).1.
Proof.
  unfold randints. simpl. apply Forall_fmap, Forall_forall.
  intros i _. simpl. unfold is_bit. destruct (g i); auto.
Qed.

(** ** [test_basic_functionality] *)

Section basic_test.
Variable sha256 : list Z → list Z.
Variable fuel : nat.
Hypothesis digest_size : ∀ msg, length (sha256 msg) = 32%nat.
Hypothesis Hfuel : (1 ≤ fuel)%nat.

Lemma basic_round_success (c : Z) (g : rng) (i : Z) :
  i ∈ range 100 →
  basic_round sha256 fuel (c, g) i = Some (Ret (c + 1, (randints 32 g).2)).
Proof using digest_size Hfuel.
  intros Hi. unfold basic_round.
  destruct (GEN_seed_8 sha256 fuel _ digest_size Hfuel (basic_seed_length i Hi))
    as [-> HK].
  rewrite HK. destruct (randints 32 g) as [M g'] eqn:HM.
  assert (len M = 32) as HlenM.
  { replace M with (randints 32 g).1 by (by rewrite HM).
    by apply len_randints. }
  assert (0 < len M) as Hpos by lia.
  assert (len M `mod` 15 ≠ 0) as H15 by (by rewrite HlenM).
  set (K := expand_key _ _ _) in *.
  assert (len K = len M) as HKM by lia.
  rewrite (ENC_Ret K M HKM Hpos), bind_Ret_l.
  rewrite (DEC_after_ENC K M _ Hpos H15 (ENC_Ret K M HKM Hpos)).
  rewrite bind_Ret_l. by rewrite decide_True.
Qed.

Lemma basic_rounds (g : rng) idx (c : Z) :
  (∀ i, i ∈ idx → i ∈ range 100) →
  ∃ g', for_each_run (basic_round sha256 fuel) idx (c, g)
        = Some (Ret (c + Z.of_nat (length idx), g')) ∧
        ∀ i, g' i = g (32 * length idx + i)%nat.
Proof using digest_size Hfuel.
  revert g c. induction idx as [|i idx IH]; intros g c Hidx.
  - exists g. split; [simpl; do 3 f_equal; lia | done].
  - cbn [for_each_run]. rewrite basic_round_success by (apply Hidx; left).
    destruct (IH (randints 32 g).2 (c + 1)) as (g' & -> & Hg').
    { intros j Hj. apply Hidx. by right. }
    exists g'. split; [do 3 f_equal; simpl; lia|].
    intros j. rewrite Hg'. unfold randints. cbn [snd]. f_equal.
    change (Z.to_nat 32) with 32%nat. simpl length. lia.
Qed.
End basic_test.

(** ** The dictionary of [test_equivalent_keys] *)

Lemma dict_get_append (d : list (string * list string)) (k v k' : string) :
  dict_get (dict_append d k v) k'
  = if decide (k = k') then dict_get d k' ++ [v] else dict_get d k'.
Proof.
  induction d as [|[k0 vs] d IH]; simpl.
  - repeat case_decide; congruence.
  - destruct (decide (k0 = k)) as [->|Hk0]; simpl.
    + repeat case_decide; congruence.
    + rewrite IH. repeat case_decide; congruence.
Qed.

Lemma dict_append_keys (d : list (string * list string)) (k v : string) :
  (dict_append d k v).*1 = if decide (k ∈ d.*1) then d.*1 else d.*1 ++ [k].
Proof.
  induction d as [|[k0 vs] d IH]; csimpl.
  - destruct (decide (k ∈ [])) as [Hin|_]; [by apply elem_of_nil in Hin | done].
  - destruct (decide (k0 = k)) as [->|Hk0]; csimpl.
    + destruct (decide (k ∈ k :: d.*1)) as [_|Hin]; [done|].
      exfalso. apply Hin. left.
    + rewrite IH.
      destruct (decide (k ∈ d.*1)) as [Hin|Hin],
        (decide (k ∈ k0 :: d.*1)) as [Hin'|Hin']; try done.
      * exfalso. apply Hin'. by right.
      * apply elem_of_cons in Hin' as [?|?]; congruence.
Qed.

Lemma dict_append_NoDup (d : list (string * list string)) (k v : string) :
  NoDup d.*1 → NoDup (dict_append d k v).*1.
Proof.
  intros Hd. rewrite dict_append_keys. case_decide as Hin; [done|].
  apply NoDup_app. repeat split; [done | | apply NoDup_singleton].
  intros x Hx ->%list_elem_of_singleton. done.
Qed.

Lemma dict_append_values (d : list (string * list string)) (k v : string) :
  Forall (λ vs, vs ≠ []) d.*2 →
  Forall (λ vs, vs ≠ []) (dict_append d k v).*2 ∧
  foldl Z.add 0 ((λ vs : list string, Z.of_nat (length vs)) <$> (dict_append d k v).*2)
  = foldl Z.add 0 ((λ vs : list string, Z.of_nat (length vs)) <$> d.*2) + 1.
Proof.
  induction d as [|[k0 vs] d IH]; intros Hd; csimpl.
  - split; [by repeat constructor | done].
  - apply Forall_cons in Hd as [Hvs Hd].
    destruct (decide (k0 = k)) as [->|Hk0]; csimpl.
    + split; [constructor; [by destruct vs | done]|].
      rewrite (foldl_add_acc (0 + _)), (foldl_add_acc (0 + Z.of_nat (length vs))).
      rewrite length_app. simpl. lia.
    + destruct (IH Hd) as [IH1 IH2]. split; [by constructor|].
      rewrite (foldl_add_acc (0 + _)), IH2.
      rewrite (foldl_add_acc (0 + Z.of_nat (length vs))). lia.
Qed.

(** With no empty group, the equivalent keys are the seeds that do not
    open a group. *)
Lemma equivalents_of_sum (V : list (list string)) :
  Forall (λ vs, vs ≠ []) V →
  equivalents_of V + Z.of_nat (length V)
  = foldl Z.add 0 ((λ vs : list string, Z.of_nat (length vs)) <$> V).
Proof.
  unfold equivalents_of. induction 1 as [|vs V Hvs HV IH]; [done|].
  rewrite filter_cons. csimpl.
  rewrite (foldl_add_acc (0 + _)), <- IH.
  assert (length vs ≠ 0%nat) by (by destruct vs).
  case_decide; csimpl.
  - rewrite (foldl_add_acc (0 + _)). lia.
  - lia.
Qed.

Lemma C_str_inj (C1 C2 : list Z) :
  Forall is_bit C1 → Forall is_bit C2 → C_str C1 = C_str C2 → C1 = C2.
Proof.
  intros H1. revert C2.
  induction H1 as [|b1 C1 Hb1 _ IH]; intros C2 H2 Heq.
  - destruct H2 as [|b2 C2 [-> | ->] _]; [done | discriminate..].
  - destruct H2 as [|b2 C2 Hb2 H2].
    + destruct Hb1 as [-> | ->]; discriminate.
    + destruct Hb1 as [-> | ->], Hb2 as [-> | ->];
        try discriminate; injection Heq as Heq; f_equal; by apply IH.
Qed.

Section equivalent_keys.
Variable sha256 : list Z → list Z.
Variable fuel : nat.
Hypothesis digest_size : ∀ msg, length (sha256 msg) = 32%nat.
Hypothesis Hfuel : (1 ≤ fuel)%nat.
Variable M : list Z.
Hypothesis HM : len M = 32.

(** The key a seed of 8 characters is filed under. *)
Lemma cipher_of_seed (seed : string) (K C : list Z) :
  String.length seed = 8%nat →
  GEN sha256 fuel (codepoints seed) = Some (Ret K) → ENC K M = Ret C →
  K = expand_key sha256 fuel (codepoints seed) ∧
  C = foldl (ENC_round_pure (expand_key sha256 fuel (codepoints seed)) 32) M
        (range rounds).
Proof using digest_size Hfuel HM.
  intros Hlen HG HE.
  destruct (GEN_seed_8 sha256 fuel seed digest_size Hfuel Hlen) as [HG' HK].
  assert (K = expand_key sha256 fuel (codepoints seed)) as -> by congruence.
  split; [done|]. rewrite ENC_Ret, HM in HE by lia. congruence.
Qed.

Lemma equivalent_round_Ret (d : list (string * list string)) (i : Z) :
  i ∈ range 2000 →
  equivalent_round sha256 fuel M d i
  = Some (Ret (dict_append d
      (C_str (foldl (ENC_round_pure
                (expand_key sha256 fuel (codepoints ("s" +:+ zero_pad 7 i))) 32) M
                (range rounds)))
      ("s" +:+ zero_pad 7 i))).
Proof using digest_size Hfuel HM.
  intros Hi. unfold equivalent_round.
  destruct (GEN_seed_8 sha256 fuel _ digest_size Hfuel
              (equivalent_seed_length i Hi)) as [-> HK].
  rewrite ENC_Ret, HM by lia. done.
Qed.

Lemma equivalent_rounds idx (d : list (string * list string)) :
  (∀ i, i ∈ idx → i ∈ range 2000) →
  NoDup d.*1 → Forall (λ vs, vs ≠ []) d.*2 →
  ∃ d', for_each_run (equivalent_round sha256 fuel M) idx d = Some (Ret d') ∧
    NoDup d'.*1 ∧ Forall (λ vs, vs ≠ []) d'.*2 ∧
    foldl Z.add 0 ((λ vs : list string, Z.of_nat (length vs)) <$> d'.*2)
    = foldl Z.add 0 ((λ vs : list string, Z.of_nat (length vs)) <$> d.*2)
      + Z.of_nat (length idx) ∧
    ∀ k, dict_get d' k
         = dict_get d k ++
           ((λ i, "s" +:+ zero_pad 7 i) <$>
            filter (λ i, C_str (foldl (ENC_round_pure
                       (expand_key sha256 fuel (codepoints ("s" +:+ zero_pad 7 i))) 32) M
                       (range rounds)) = k) idx).
Proof using digest_size Hfuel HM.
  revert d. induction idx as [|i idx IH]; intros d Hidx Hnd Hne.
  - exists d. repeat split; try done.
    + simpl. lia.
    + intros k. by rewrite app_nil_r.
  - cbn [for_each_run]. rewrite equivalent_round_Ret by (apply Hidx; left).
    set (k0 := C_str _). set (s0 := "s" +:+ zero_pad 7 i).
    destruct (dict_append_values d k0 s0 Hne) as [Hne' Hsum'].
    destruct (IH (dict_append d k0 s0)) as (d' & Hrun & Hnd' & Hne'' & Hsum & Hget).
    { intros j Hj. apply Hidx. by right. }
    { by apply dict_append_NoDup. }
    { done. }
    exists d'. split; [done|]. split; [done|]. split; [done|]. split.
    + rewrite Hsum, Hsum'. cbn [length]. lia.
    + intros k. rewrite Hget, dict_get_append, filter_cons. fold k0 s0.
      destruct (decide (k0 = k)) as [->|Hk].
      * by rewrite <- app_assoc.
      * done.
Qed.
End equivalent_keys.

(** ** The modified seeds of [test_confusion] *)

(** The next character is printable and is never the character itself;
    on the printable characters it is the successor, 126 going to 32. *)
Lemma next_char_printable (c : Z) :
  32 ≤ next_char c ≤ 126 ∧ next_char c ≠ c ∧
  (32 ≤ c ≤ 126 → next_char c = if decide (c = 126) then 32 else c + 1).
Proof.
  unfold next_char.
  pose proof (Z.mod_pos_bound (c + 1 - 32) 95 ltac:(lia)) as Hmod.
  split; [lia|]. split.
  - intros Heq.
    assert (32 ≤ c ≤ 126) as Hc by lia.
    destruct (decide (c = 126)) as [->|Hne]; [vm_compute in Heq; lia|].
    rewrite Z.mod_small in Heq by lia. lia.
  - intros Hc. case_decide as H126; [subst c; reflexivity|].
    rewrite Z.mod_small by lia. lia.
Qed.

Lemma modified_seed_Ret (seed : list Z) (pos : Z) :
  0 ≤ pos < len seed →
  ∃ c, seed !! Z.to_nat pos = Some c ∧
    modified_seed seed pos = Ret (<[Z.to_nat pos := next_char c]> seed).
Proof.
  intros Hpos. unfold modified_seed, getitem, setitem, norm_index. cbn zeta.
  destruct (decide (pos < 0)); [lia|]. rewrite decide_True by done.
  destruct (lookup_lt_is_Some_2 seed (Z.to_nat pos)) as [c Hc];
    [unfold len in Hpos; lia|].
  exists c. rewrite Hc. cbn [mbind result_bind bind].
  by rewrite decide_True by done.
Qed.

Lemma encodable_next_char (seed : list Z) (i : nat) (c : Z) :
  encodable seed → encodable (<[i := next_char c]> seed).
Proof.
  intros Hseed. apply Forall_insert; [done|].
  unfold surrogate. pose proof (next_char_printable c). lia.
Qed.

(** * Further theorems *)

(** X1.  On a key and a message of one positive length that is no
    multiple of 15, ENC returns a ciphertext that DEC sends back to the
    message, and that no other message of that length has. *)
Theorem DEC_inverts_ENC (K M : list Z) :
  len K = len M → 0 < len M → len M `mod` 15 ≠ 0 →
  ∃ C, ENC K M = Ret C ∧ DEC K C = Ret M ∧
       ∀ M', len M' = len M → ENC K M' = Ret C → M' = M.
Proof.
  intros HK Hn H15. eexists. split; [by apply ENC_Ret|].
  split; [apply DEC_after_ENC; [done..|by apply ENC_Ret]|].
  intros M' HM' HE'.
  assert (DEC K (foldl (ENC_round_pure K (len M)) M (range rounds)) = Ret M)
    as HD by (apply DEC_after_ENC; [done..|by apply ENC_Ret]).
  apply DEC_after_ENC in HE'; [congruence | lia | by rewrite HM'].
Qed.

(** X2.  On a key and a ciphertext of one positive length that is no
    multiple of 15, DEC returns a message that ENC sends back to the
    ciphertext. *)
Theorem ENC_DEC_roundtrip (K C : list Z) :
  len K = len C → 0 < len C → len C `mod` 15 ≠ 0 →
  ∃ M, DEC K C = Ret M ∧ ENC K M = Ret C.
Proof.
  intros HK Hn H15. eexists. split; [by apply DEC_Ret|].
  apply ENC_after_DEC; [done..|]. by apply DEC_Ret.
Qed.

(** X3.  For a positive length [n], the position mapping of a round sends
    exactly one position to each position if and only if [n] is no
    multiple of 15. *)
Theorem new_pos_bijective_iff (n r : Z) :
  0 < n →
  (∀ j, 0 ≤ j < n →
     ∃ i, (0 ≤ i < n ∧ new_pos n r i = j) ∧
          ∀ i', 0 ≤ i' < n ∧ new_pos n r i' = j → i' = i)
  ↔ n `mod` 15 ≠ 0.
Proof.
  intros Hn. split.
  - intros Hbij. apply (new_pos_inj_iff n r Hn).
    intros i j Hi Hj Heq.
    destruct (Hbij (new_pos n r j) (new_pos_range n r j Hn))
      as (i0 & _ & Huniq).
    rewrite (Huniq i), (Huniq j); auto.
  - intros H15 j Hj.
    destruct (new_pos_surj n r j Hn H15 Hj) as (i & Hi & Hij).
    exists i. split; [done|]. intros i' [Hi' Hij'].
    apply (new_pos_inj n r); congruence.
Qed.

(** X4.  On a key and data of one positive length ENC and DEC return; they
    raise [ValueError] only on different lengths and [ZeroDivisionError]
    only on the empty key and data, and never [IndexError]. *)
Theorem ENC_DEC_exceptions (K X : list Z) :
  (length K = length X → (0 < length X)%nat →
   ∃ C M, ENC K X = Ret C ∧ DEC K X = Ret M) ∧
  (∀ e, ENC K X = Raise e ∨ DEC K X = Raise e →
     (e = ValueError ∧ length K ≠ length X) ∨
     (e = ZeroDivisionError ∧ K = [] ∧ X = [])).
Proof.
  split; [|apply ENC_DEC_Raise].
  intros Hlen Hpos. eexists _, _.
  split; [apply ENC_Ret | apply DEC_Ret]; unfold len; lia.
Qed.

(** X6.  On a positive length that is no multiple of 15, flipping the bit
    [p] of the message flips one bit of the ciphertext and no other: the
    bit [q] whose source position, which depends on the length alone, is
    [p]. *)
Theorem ENC_moves_one_bit (K M C : list Z) (p : nat) :
  0 < len M → len M `mod` 15 ≠ 0 → (p < length M)%nat →
  ENC K M = Ret C →
  ∃ q, (q < length M)%nat ∧ ENC_index (len M) q = p ∧
    ENC K (<[p := Z.lxor (M !!! p) 1]> M) = Ret (<[q := Z.lxor (C !!! q) 1]> C) ∧
    Z.lxor (C !!! q) 1 ≠ C !!! q.
Proof.
  intros Hn H15 Hp HE.
  destruct (ENC_flip K M C p Hn H15 Hp HE) as (q & Hq & Hqp & HE').
  exists q. repeat split; try done. apply lxor_1_ne.
Qed.

(** X8.  The string a ciphertext of bits is filed under determines the
    ciphertext. *)
Theorem C_str_injective (C1 C2 : list Z) :
  Forall is_bit C1 → Forall is_bit C2 → C_str C1 = C_str C2 → C1 = C2.
Proof. apply C_str_inj. Qed.

(** X9.  With a hash of 32-byte digests, [test_basic_functionality]
    returns [True] whatever bits [random] gives: each of its 100 round
    trips succeeds, and it draws 3200 bits. *)
Theorem test_basic_functionality_passes (sha256 : list Z → list Z)
    (fuel : nat) (g : rng) :
  (∀ msg, length (sha256 msg) = 32%nat) → (1 ≤ fuel)%nat →
  ∃ g', test_basic_functionality sha256 fuel g = Some (Ret (true, g')) ∧
        ∀ i, g' i = g (3200 + i)%nat.
Proof.
  intros Hsz Hfuel. unfold test_basic_functionality. cbn zeta.
  destruct (basic_rounds sha256 fuel Hsz Hfuel g (range 100) 0)
    as (g' & -> & Hg'); [done|].
  exists g'. split; [done|]. intros i. rewrite Hg'. f_equal.
Qed.

(** X12.  For a position of the seed, the modified seed of
    [test_confusion] has the length of the seed, differs from it at that
    position alone, and has a printable character there; a position at
    or past the end of the seed raises [IndexError]. *)
Theorem modified_seed_spec (seed : list Z) (pos : Z) :
  (0 ≤ pos < len seed →
   ∃ seed' c c',
     modified_seed seed pos = Ret seed' ∧
     length seed' = length seed ∧
     seed !! Z.to_nat pos = Some c ∧
     seed' !! Z.to_nat pos = Some c' ∧
     c' ≠ c ∧ 32 ≤ c' ≤ 126 ∧
     ∀ j, j ≠ Z.to_nat pos → seed' !! j = seed !! j) ∧
  (len seed ≤ pos → modified_seed seed pos = Raise IndexError).
Proof.
  split.
  - intros Hpos. destruct (modified_seed_Ret seed pos Hpos) as (c & Hc & ->).
    destruct (next_char_printable c) as (Hpr & Hne & _).
    eexists _, c, (next_char c). split; [done|].
    rewrite length_insert. split; [done|]. split; [done|].
    split; [apply list_lookup_insert_eq; by eapply lookup_lt_Some|].
    split; [done|]. split; [done|].
    intros j Hj. by apply list_lookup_insert_ne.
  - intros Hpos. unfold modified_seed, getitem, norm_index. cbn zeta.
    assert (0 ≤ len seed) by (unfold len; lia).
    destruct (decide (pos < 0)); [lia|]. by rewrite decide_False by lia.
Qed.

(** X10.  With a hash of 32-byte digests, [test_equivalent_keys] returns,
    its dictionary has no key twice, and the number of equivalent keys it
    reports is the 2000 seeds less the keys of the dictionary. *)
Theorem test_equivalent_keys_count (sha256 : list Z → list Z) (fuel : nat)
    (g : rng) :
  (∀ msg, length (sha256 msg) = 32%nat) → (1 ≤ fuel)%nat →
  ∃ ciphertexts equivalents g',
    test_equivalent_keys sha256 fuel g
    = Some (Ret (ciphertexts, equivalents, g')) ∧
    NoDup ciphertexts.*1 ∧
    equivalents + Z.of_nat (length ciphertexts) = 2000.
Proof.
  intros Hsz Hfuel. unfold test_equivalent_keys. cbn zeta.
  change (4 * 8) with 32.
  destruct (randints 32 g) as [M g'] eqn:HMg.
  assert (len M = 32) as HM.
  { replace M with (randints 32 g).1 by (by rewrite HMg).
    by apply len_randints. }
  destruct (equivalent_rounds sha256 fuel Hsz Hfuel M HM (range 2000) [])
    as (d & -> & Hnd & Hne & Hsum & _);
    [done | constructor | constructor |].
  eexists _, _, _. split; [done|]. split; [done|].
  pose proof (equivalents_of_sum d.*2 Hne) as Heq.
  unfold equivalents_of in Heq. rewrite length_fmap in Heq.
  rewrite Heq, Hsum. reflexivity.
Qed.

(** X11.  In the dictionary of [test_equivalent_keys], the seed [j] is
    filed under the string of the ciphertext of the seed [i] if and only
    if the two seeds give the fixed message the same ciphertext. *)
Theorem test_equivalent_keys_groups (sha256 : list Z → list Z) (fuel : nat)
    (g : rng) :
  (∀ msg, length (sha256 msg) = 32%nat) → (1 ≤ fuel)%nat →
  ∃ ciphertexts equivalents g',
    test_equivalent_keys sha256 fuel g
    = Some (Ret (ciphertexts, equivalents, g')) ∧
    ∀ i j K_i K_j C_i C_j,
      i ∈ range 2000 → j ∈ range 2000 →
      GEN sha256 fuel (codepoints ("s" +:+ zero_pad 7 i)) = Some (Ret K_i) →
      GEN sha256 fuel (codepoints ("s" +:+ zero_pad 7 j)) = Some (Ret K_j) →
      ENC K_i (randints 32 g).1 = Ret C_i →
      ENC K_j (randints 32 g).1 = Ret C_j →
      ("s" +:+ zero_pad 7 j) ∈ dict_get ciphertexts (C_str C_i) ↔ C_i = C_j.
Proof.
  intros Hsz Hfuel. unfold test_equivalent_keys. cbn zeta.
  change (4 * 8) with 32.
  destruct (randints 32 g) as [M g'] eqn:HMg.
  assert (len M = 32) as HM.
  { replace M with (randints 32 g).1 by (by rewrite HMg).
    by apply len_randints. }
  assert (Forall is_bit M) as HMbits.
  { replace M with (randints 32 g).1 by (by rewrite HMg).
    apply randints_bits. }
  destruct (equivalent_rounds sha256 fuel Hsz Hfuel M HM (range 2000) [])
    as (d & -> & _ & _ & _ & Hget);
    [done | constructor | constructor |].
  eexists _, _, _. split; [done|].
  intros i j K_i K_j C_i C_j Hi Hj HGi HGj HEi HEj. cbn [fst] in HEi, HEj.
  assert (Forall is_bit C_i ∧ Forall is_bit C_j) as [Hbi Hbj].
  { split.
    - apply (ENC_DEC_bits K_i M C_i); [by eapply GEN_bits | done | by left].
    - apply (ENC_DEC_bits K_j M C_j); [by eapply GEN_bits | done | by left]. }
  destruct (cipher_of_seed sha256 fuel Hsz Hfuel M HM _ K_i C_i
              (equivalent_seed_length i Hi) HGi HEi) as [_ HCi].
  destruct (cipher_of_seed sha256 fuel Hsz Hfuel M HM _ K_j C_j
              (equivalent_seed_length j Hj) HGj HEj) as [_ HCj].
  rewrite Hget. cbn [dict_get app]. rewrite list_elem_of_fmap.
  split.
  - intros (j' & Hseed & Hin). apply list_elem_of_filter in Hin as [Hkey _].
    rewrite <- Hseed, <- HCj in Hkey.
    symmetry. by apply C_str_inj.
  - intros Heq. exists j. split; [done|].
    apply list_elem_of_filter. split; [|done]. by rewrite <- HCj, Heq.
Qed.

(** ** [test_confusion] *)

Lemma modified_seed_length (seed : list Z) (pos : Z) :
  0 ≤ pos < len seed → encodable seed →
  ∃ seed', modified_seed seed pos = Ret seed' ∧
           length seed' = length seed ∧ encodable seed'.
Proof.
  intros Hpos Hseed. destruct (modified_seed_Ret seed pos Hpos) as (c & _ & ->).
  eexists. split; [done|]. split; [by rewrite length_insert|].
  by apply encodable_next_char.
Qed.

Lemma bits_changed_bound (C1 C2 : list Z) :
  0 ≤ bits_changed C1 C2 ≤ Z.of_nat (length C1).
Proof.
  unfold bits_changed. revert C2.
  induction C1 as [|c1 C1 IH]; intros [|c2 C2]; csimpl; try lia.
  rewrite foldl_add_acc. specialize (IH C2). case_decide; lia.
Qed.

(** X13.  With a hash of 32-byte digests, a seed that holds no surrogate
    and a message as long as the key of the seed, the measurements of
    [test_confusion] never fail: there is one for each character of the
    seed, each between 0 and the key length. *)
Theorem confusion_results_bounds (sha256 : list Z → list Z) (fuel : nat)
    (seed : list Z) (M_fixed : list Z) :
  (∀ msg, length (sha256 msg) = 32%nat) →
  encodable seed →
  (4 * length seed ≤ 256 * fuel)%nat →
  (0 < length seed)%nat →
  length M_fixed = (4 * length seed)%nat →
  ∃ results,
    confusion_results sha256 fuel seed M_fixed = Some (Ret results) ∧
    length results = length seed ∧
    Forall (λ x, 0 ≤ x ≤ 4 * len seed) results.
Proof.
  intros Hsz Hseed Hfuel Hpos HM. unfold confusion_results.
  assert (∀ s, encodable s → length s = length seed →
            ∃ K, GEN sha256 fuel s = Some (Ret K) ∧ len K = len M_fixed)
    as HGEN.
  { intros s Hs Hlen. eexists.
    split; [apply GEN_expand_key; [done | done | lia]|].
    unfold len. rewrite length_expand_key; [lia | done | lia]. }
  destruct (HGEN seed Hseed eq_refl) as (K & -> & HK).
  assert (0 < len M_fixed) as Hn by (unfold len; lia).
  rewrite (ENC_Ret K M_fixed HK Hn).
  set (C := foldl _ M_fixed (range rounds)).
  assert (length C = length M_fixed) as HC.
  { apply (ENC_DEC_same_length K). left. by apply ENC_Ret. }
  set (P := λ l : list Z, Forall (λ x, 0 ≤ x ≤ 4 * len seed) l).
  assert (∃ f : list Z → Z → list Z,
    (∀ l i, length (f l i) = S (length l)) ∧
    ∀ l i, i ∈ range (len seed) → P l →
      match modified_seed seed i with
      | Raise e => Some (Raise e)
      | Ret seed_mod =>
          match GEN sha256 fuel seed_mod with
          | None => None
          | Some (Raise e) => Some (Raise e)
          | Some (Ret K_mod) =>
              Some (C_mod ← ENC K_mod M_fixed;
                    mret (l ++ [bits_changed C C_mod]))
          end
      end = Some (Ret (f l i)) ∧ P (f l i)) as (f & Hlenf & Hbody).
  { exists (λ l i,
      match modified_seed seed i with
      | Ret seed_mod =>
          l ++ [bits_changed C
                  (foldl (ENC_round_pure (expand_key sha256 fuel seed_mod)
                            (len M_fixed)) M_fixed (range rounds))]
      | Raise _ => l ++ [0]
      end).
    split.
    { intros l i. destruct (modified_seed seed i);
        rewrite length_app; simpl; lia. }
    intros l i Hi%elem_of_range Hl.
    destruct (modified_seed_length seed i Hi Hseed) as (s' & -> & Hlen' & Hs').
    rewrite GEN_expand_key by (rewrite ?Hlen'; done || lia).
    assert (len (expand_key sha256 fuel s') = len M_fixed) as HK'.
    { unfold len. rewrite length_expand_key; [lia | done | lia]. }
    rewrite (ENC_Ret _ M_fixed HK' Hn), bind_Ret_l.
    split; [done|]. apply Forall_app. split; [done|].
    apply Forall_singleton. pose proof (bits_changed_bound C
      (foldl (ENC_round_pure (expand_key sha256 fuel s') (len M_fixed))
         M_fixed (range rounds))).
    assert (Z.of_nat (length C) = 4 * len seed) by (unfold len; lia). lia. }
  destruct (for_each_run_foldl P _ f _ Hbody []) as [Hrun HP]; [constructor|].
  eexists. split; [exact Hrun|]. split; [|done].
  assert (∀ idx l, length (foldl f l idx) = (length l + length idx)%nat) as Hlen.
  { induction idx as [|i idx IH]; intros l; simpl; [lia|].
    rewrite IH, Hlenf. lia. }
  rewrite Hlen. unfold range, len. rewrite length_seqZ. simpl. lia.
Qed.

(** * The further theorems at concrete inputs *)

Lemma DEC_inverts_ENC_witness :
  ∃ C, ENC [1; 0; 1; 1; 0; 0; 1; 0] [0; 1; 1; 0; 1; 0; 0; 1] = Ret C ∧
       DEC [1; 0; 1; 1; 0; 0; 1; 0] C = Ret [0; 1; 1; 0; 1; 0; 0; 1] ∧
       ∀ M', len M' = len [0; 1; 1; 0; 1; 0; 0; 1] →
             ENC [1; 0; 1; 1; 0; 0; 1; 0] M' = Ret C →
             M' = [0; 1; 1; 0; 1; 0; 0; 1].
Proof.
  apply (DEC_inverts_ENC [1; 0; 1; 1; 0; 0; 1; 0] [0; 1; 1; 0; 1; 0; 0; 1]);
    [reflexivity | reflexivity | by vm_compute].
Defined.

Lemma ENC_DEC_roundtrip_witness :
  ∃ M, DEC [1; 0; 1; 1; 0; 0; 1; 0] [1; 1; 1; 0; 1; 1; 1; 0] = Ret M ∧
       ENC [1; 0; 1; 1; 0; 0; 1; 0] M = Ret [1; 1; 1; 0; 1; 1; 1; 0].
Proof.
  apply (ENC_DEC_roundtrip [1; 0; 1; 1; 0; 0; 1; 0] [1; 1; 1; 0; 1; 1; 1; 0]);
    [reflexivity | reflexivity | by vm_compute].
Defined.

Lemma new_pos_bijective_iff_witness :
  ∃ i, (0 ≤ i < 8 ∧ new_pos 8 0 i = 3) ∧
       ∀ i', 0 ≤ i' < 8 ∧ new_pos 8 0 i' = 3 → i' = i.
Proof.
  apply (proj2 (new_pos_bijective_iff 8 0 ltac:(lia)) ltac:(by vm_compute) 3).
  lia.
Defined.

Lemma ENC_DEC_exceptions_witness :
  ∃ C M, ENC [1; 0] [1; 1] = Ret C ∧ DEC [1; 0] [1; 1] = Ret M.
Proof.
  apply (proj1 (ENC_DEC_exceptions [1; 0] [1; 1])); [reflexivity | simpl; lia].
Defined.

(** The seed of 128 characters "a" under SHA-256. *)
Lemma GEN_second_block_witness :
  let seed := replicate 128 97 in
  ∃ key key1,
    GEN SHA256.sha256 3 seed = Some (Ret key) ∧
    GEN SHA256.sha256 3 (seed ++ codepoints "1") = Some (Ret key1) ∧
    take 256 (drop 256 key) = take 256 key1.
Proof.
  intros seed.
  apply (GEN_second_block SHA256.sha256 3 seed);
    [apply length_sha256 | by apply (bool_decide_unpack _)
    | vm_compute; lia | vm_compute; lia].
Defined.

Lemma ENC_moves_one_bit_witness :
  ∃ q, (q < 8)%nat ∧ ENC_index 8 q = 0%nat ∧
    ENC [1; 0; 1; 1; 0; 0; 1; 0] [1; 1; 1; 0; 1; 0; 0; 1]
    = Ret (<[q := Z.lxor ([1; 1; 1; 0; 1; 1; 1; 0] !!! q) 1]>
             [1; 1; 1; 0; 1; 1; 1; 0]) ∧
    Z.lxor ([1; 1; 1; 0; 1; 1; 1; 0] !!! q) 1 ≠ [1; 1; 1; 0; 1; 1; 1; 0] !!! q.
Proof.
  apply (ENC_moves_one_bit [1; 0; 1; 1; 0; 0; 1; 0] [0; 1; 1; 0; 1; 0; 0; 1]
           [1; 1; 1; 0; 1; 1; 1; 0] 0);
    [reflexivity | by vm_compute | simpl; lia | vm_compute; reflexivity].
Defined.

Lemma diffusion_results_ones_witness :
  diffusion_results [1; 0; 1; 1; 0; 0; 1; 0] [0; 1; 1; 0; 1; 0; 0; 1]
  = Ret (replicate 8 1).
Proof.
  apply (diffusion_results_ones [1; 0; 1; 1; 0; 0; 1; 0]
           [0; 1; 1; 0; 1; 0; 0; 1]);
    [reflexivity | reflexivity | by vm_compute].
Defined.

Lemma C_str_injective_witness : [1; 0; 1] = [1; 0; 1].
Proof.
  apply (C_str_injective [1; 0; 1] [1; 0; 1]);
    [repeat constructor; unfold is_bit; lia..| reflexivity].
Defined.

Lemma test_basic_functionality_passes_witness :
  ∃ g', test_basic_functionality SHA256.sha256 1 (λ _, false)
        = Some (Ret (true, g')) ∧
        ∀ i, g' i = false.
Proof.
  apply (test_basic_functionality_passes SHA256.sha256 1 (λ _, false));
    [apply length_sha256 | lia].
Defined.

Lemma test_equivalent_keys_count_witness :
  ∃ ciphertexts equivalents g',
    test_equivalent_keys SHA256.sha256 1 (λ _, false)
    = Some (Ret (ciphertexts, equivalents, g')) ∧
    NoDup ciphertexts.*1 ∧
    equivalents + Z.of_nat (length ciphertexts) = 2000.
Proof.
  apply (test_equivalent_keys_count SHA256.sha256 1 (λ _, false));
    [apply length_sha256 | lia].
Defined.

Lemma test_equivalent_keys_groups_witness :
  ∃ ciphertexts equivalents g',
    test_equivalent_keys SHA256.sha256 1 (λ _, true)
    = Some (Ret (ciphertexts, equivalents, g')) ∧
    ∀ i j K_i K_j C_i C_j,
      i ∈ range 2000 → j ∈ range 2000 →
      GEN SHA256.sha256 1 (codepoints ("s" +:+ zero_pad 7 i)) = Some (Ret K_i) →
      GEN SHA256.sha256 1 (codepoints ("s" +:+ zero_pad 7 j)) = Some (Ret K_j) →
      ENC K_i (randints 32 (λ _, true)).1 = Ret C_i →
      ENC K_j (randints 32 (λ _, true)).1 = Ret C_j →
      ("s" +:+ zero_pad 7 j) ∈ dict_get ciphertexts (C_str C_i) ↔ C_i = C_j.
Proof.
  apply (test_equivalent_keys_groups SHA256.sha256 1 (λ _, true));
    [apply length_sha256 | lia].
Defined.

Lemma modified_seed_spec_witness :
  ∃ seed' c c',
    modified_seed (codepoints "ab~") 2 = Ret seed' ∧
    length seed' = length (codepoints "ab~") ∧
    codepoints "ab~" !! Z.to_nat 2 = Some c ∧
    seed' !! Z.to_nat 2 = Some c' ∧
    c' ≠ c ∧ 32 ≤ c' ≤ 126 ∧
    ∀ j, j ≠ Z.to_nat 2 → seed' !! j = codepoints "ab~" !! j.
Proof.
  apply (proj1 (modified_seed_spec (codepoints "ab~") 2)).
  unfold len. simpl. lia.
Defined.

Lemma confusion_results_bounds_witness :
  ∃ results,
    confusion_results SHA256.sha256 1 (codepoints "ab") (replicate 8 0)
    = Some (Ret results) ∧
    length results = length (codepoints "ab") ∧
    Forall (λ x, 0 ≤ x ≤ 4 * len (codepoints "ab")) results.
Proof.
  apply (confusion_results_bounds SHA256.sha256 1 (codepoints "ab")
           (replicate 8 0));
    [apply length_sha256 | by apply (bool_decide_unpack _)
    | simpl; lia | simpl; lia | reflexivity].
Defined.
